(** * The intermediate representation of the WAT compiler

    A shallow embedding of [src/wat_compiler/ir_types.ts]: the module
    expression with its interned signature table, export expressions,
    function expressions with their name slots, and the token expressions
    (folded operation trees, stack-form sequences, blocks) with [unfold]
    and the type resolution over an abstract operand stack.

    JavaScript exceptions are modelled by the error monad [Result]; arrays
    are lists in array order, so the top of an operand stack is the LAST
    element of the list, as it is for the [push]/[pop]/[at(-1)] calls of
    the source. *)

From Stdlib Require Import ZArith.
From stdpp Require Import base strings option list.

Set Default Proof Using "Type".

(** ** Errors and the error monad *)

(** The [throw new Error(...)] sites of the file, one constructor per site
    (messages are not part of the model), and the failing [assert] of
    [common/assert]. *)
Inductive Error : Type :=
| TypeMismatch                 (* 'Type mismatch' in the pop loops *)
| TypeMismatchExpected         (* 'Type mismatch, expected ..., but got ...' *)
| AssertionFailed              (* assert(false, ...) / a failed assert *)
| UnexpectedExportName
| UnexpectedExportType
| UnexpectedExportID
| ParameterNameNotFound.

Inductive Result (A : Type) : Type :=
| Ok (a : A)
| Throw (e : Error).
Arguments Ok {A} a.
Arguments Throw {A} e.

#[global] Instance Result_ret : MRet Result := fun _ a => Ok a.
#[global] Instance Result_bind : MBind Result := fun _ _ f m =>
  match m with
  | Ok a => f a
  | Throw e => Throw e
  end.
#[global] Instance Result_fmap : FMap Result := fun _ _ f m =>
  match m with
  | Ok a => Ok (f a)
  | Throw e => Throw e
  end.

Definition succeeds {A} (m : Result A) : bool :=
  match m with Ok _ => true | Throw _ => false end.

(** ** Tokens *)

(** Modelled from the spec: the value types of [common/type] (absent from
    src/): the four numeric types and the reference types. *)
Inductive ValueType : Type := I32 | I64 | F32 | F64 | FuncRef | ExternRef.

#[global] Instance ValueType_eq_dec : EqDecision ValueType.
Proof. solve_decision. Defined.

(** Modelled from the spec: the closed enumeration of token kinds of
    [common/token] (absent from src/).  The source names [Text], [Func],
    [Nat], [Var], [Block], [Loop], [If] and [End]. *)
Module TokenType.
Inductive t : Type :=
| LPar | RPar
| ModuleKw | Func | Param | ResultKw | Local | Export | Import
| Block | Loop | If | Else | End
| Table | Memory | Global | Data | Elem | Start
| Instr          (* typed opcode mnemonic *)
| ValueTypeName  (* i32, i64, f32, f64 *)
| Nat | Int | Float
| Text
| Var.

#[global] Instance eq_dec : EqDecision t.
Proof. solve_decision. Defined.
End TokenType.

(** Modelled from the spec: identifiers of the opcode table of
  [common/opcode] (absent from src/); the file itself names only
  [OpcodeType.End].  The stack effect of an opcode is not fixed here: it
  is a parameter of the type resolution below. *)
Module OpcodeType.
Inductive t : Type :=
| Nop | Unreachable | Block | Loop | If | Else | End
| I32Const | I64Const | F32Const | F64Const
| I32Eq | I64Eq | I32Add | F64Add
| F64Store.

#[global] Instance eq_dec : EqDecision t.
Proof. solve_decision. Defined.
End OpcodeType.

(** The fields a [Token] is built from, in the order of the constructor
    call in [createEndToken]. *)
Record Token : Type := mkToken {
  type : TokenType.t;
  lexeme : string;
  line : nat;
  col : nat;
  indexInSource : nat;
  opcodeType : option OpcodeType.t;
  valueType : option ValueType;
}.

#[global] Instance Token_eq_dec : EqDecision Token.
Proof. solve_decision. Defined.

(** A JavaScript number as far as the file uses one: an index computed
    from an array length, or the result of [Number.parseInt], which is
    [NaN] on a lexeme with no leading digits. *)
Inductive number : Type := Num (z : Z) | NaN.

#[global] Instance number_eq_dec : EqDecision number.
Proof. solve_decision. Defined.

(** ** Signatures *)

Record FunctionSignature : Type := mkFunctionSignature {
  paramTypes : list ValueType;
  returnTypes : list ValueType;
}.

#[global] Instance FunctionSignature_eq_dec : EqDecision FunctionSignature.
Proof. solve_decision. Defined.

(** lodash's [isEqual] on two signatures: deep structural equality. *)
Definition isEqual (a b : FunctionSignature) : bool := bool_decide (a = b).

(** ** Token expressions *)

(** The concrete subclasses of the abstract [TokenExpression].  An operand
    or item is a bare [Token] ([inl]) or a nested expression ([inr]).  The
    source types the items of an [UnfoldedTokenExpression] as
    [Token | OperationTree]; the model admits any nested expression there,
    which only widens the inputs the theorems cover.  A [BlockExpression]
    keeps the three fields its constructor assigns ([headerToken], [label],
    [blockExpression]); its private [signature] field is left undefined by
    the constructor and is only ever the memo of [resolveTypes]. *)
#[local] Unset Elimination Schemes.
Inductive TokenExpression : Type :=
| OperationTree (operator : Token) (operands : list (Token + TokenExpression))
| UnfoldedTokenExpression (tokens : list (Token + TokenExpression))
| EmptyTokenExpression
| BlockExpression (headerToken : Token) (label : option string)
                  (blockExpression : TokenExpression).
#[local] Set Elimination Schemes.

(** The result of [unfold]: a [PureUnfoldedTokenExpression], or its
    subclass [PureUnfoldedBlockExpression] carrying a signature. *)
Inductive PureUnfolded : Type :=
| PureUnfoldedTokenExpression (tokens : list Token)
| PureUnfoldedBlockExpression (signature : FunctionSignature) (tokens : list Token).

Definition tokensOf (p : PureUnfolded) : list Token :=
  match p with
  | PureUnfoldedTokenExpression ts => ts
  | PureUnfoldedBlockExpression _ ts => ts
  end.

(** [Array.prototype.flatMap] with a callback that may throw: elements are
    visited left to right and the first exception escapes. *)
Definition flatMapM {A B} (f : A → Result (list B)) : list A → Result (list B) :=
  fix go l :=
    match l with
    | [] => Ok []
    | x :: l' => ys ← f x; zs ← go l'; Ok (ys ++ zs)
    end.

(** [stack.at(-1) === c ? stack.pop() : throw], for each [c] of [consumed]
    in array order. *)
Fixpoint popConsumed (consumed stack : list ValueType) : Result (list ValueType) :=
  match consumed with
  | [] => Ok stack
  | c :: rest =>
      match last stack with
      | Some top =>
          if decide (top = c) then popConsumed rest (removelast stack)
          else Throw TypeMismatch
      | None => Throw TypeMismatch
      end
  end.

(** The body of the two [for (const operand of ...)] loops: read the
    item's consumed and returned types, pop the former, push the latter. *)
Definition evalItems {A} (typesOf : A → Result (list ValueType * list ValueType))
  : list A → list ValueType → Result (list ValueType) :=
  fix go items stack :=
    match items with
    | [] => Ok stack
    | x :: rest =>
        ct ← typesOf x;
        stack' ← popConsumed ct.1 stack;
        go rest (stack' ++ ct.2)
    end.

(** The synthesized [end] token of a block: [new Token(TokenType.End,
    'end', line, col, indexInSource, OpcodeType.End, null)] with the
    position of the header token. *)
Definition createEndToken (headerToken : Token) : Token :=
  mkToken TokenType.End "end" (line headerToken) (col headerToken)
          (indexInSource headerToken) (Some OpcodeType.End) None.

Section TypeResolution.
(** [Token.getConsumedTypes] and [Token.getReturnTypes] live in
    [common/token] and read the opcode table; both are absent from
    src/, so the stack effect of a token is a parameter. *)
Variable Token_getConsumedTypes : Token → list ValueType.
Variable Token_getReturnTypes : Token → list ValueType.

(** What one loop iteration reads from an operand: the two getters of a
    [Token], or of a nested expression (whose first getter call runs its
    [resolveTypes] and whose second reads the memo). *)
Definition itemTypes (resolve : TokenExpression → Result (list ValueType * list ValueType))
    (o : Token + TokenExpression) : Result (list ValueType * list ValueType) :=
  match o with
  | inl t => Ok (Token_getConsumedTypes t, Token_getReturnTypes t)
  | inr e => resolve e
  end.

(** [resolveTypes] of each class, returning the two memo fields
    [(consumedTypes, returnTypes)] it assigns; for a block these are the
    [paramTypes] and [returnTypes] of the signature it builds. *)
Fixpoint resolveTypes (e : TokenExpression)
  : Result (list ValueType * list ValueType) :=
  match e with
  | OperationTree operator operands =>
      stack ← evalItems (itemTypes resolveTypes) operands [];
      let consumedTypes := Token_getConsumedTypes operator in
      if decide (stack = consumedTypes)
      then Ok ([], Token_getReturnTypes operator)
      else Throw TypeMismatchExpected
  | UnfoldedTokenExpression tokens =>
      stack ← evalItems (itemTypes resolveTypes) tokens [];
      Ok ([], stack)
  | EmptyTokenExpression => Ok ([], [])
  | BlockExpression _ _ blockExpression =>
      ct ← resolveTypes blockExpression;
      Ok (ct.1, ct.2)
  end.

Definition getConsumedTypes (e : TokenExpression) : Result (list ValueType) :=
  fst <$> resolveTypes e.

Definition getReturnTypes (e : TokenExpression) : Result (list ValueType) :=
  snd <$> resolveTypes e.

(** [BlockExpression.getSignature], as a function of the block's
    [blockExpression] field, the only field it reads: the memo is
    undefined after construction, so the first call runs [resolveTypes],
    which builds [new FunctionSignature(consumedTypes, returnTypes)] from
    the body's getters. *)
Definition getSignature (blockExpression : TokenExpression)
  : Result FunctionSignature :=
  returnTypes ← getReturnTypes blockExpression;
  consumedTypes ← getConsumedTypes blockExpression;
  Ok (mkFunctionSignature consumedTypes returnTypes).

(** The callback of the two [flatMap] calls in [unfold]. *)
Definition itemTokens (unfold : TokenExpression → Result PureUnfolded)
    (o : Token + TokenExpression) : Result (list Token) :=
  match o with
  | inl t => Ok [t]
  | inr e => tokensOf <$> unfold e
  end.

Fixpoint unfold (e : TokenExpression) : Result PureUnfolded :=
  match e with
  | OperationTree operator operands =>
      unfoldedOperands ← flatMapM (itemTokens unfold) operands;
      Ok (PureUnfoldedTokenExpression (unfoldedOperands ++ [operator]))
  | UnfoldedTokenExpression tokens =>
      unfoldedOperands ← flatMapM (itemTokens unfold) tokens;
      Ok (PureUnfoldedTokenExpression unfoldedOperands)
  | EmptyTokenExpression => Ok (PureUnfoldedTokenExpression [])
  | BlockExpression headerToken _ blockExpression =>
      signature ← getSignature blockExpression;
      body ← unfold blockExpression;
      Ok (PureUnfoldedBlockExpression signature
            ([headerToken] ++ tokensOf body ++ [createEndToken headerToken]))
  end.

(** The [BlockExpression] constructor: it asserts the kind of the header
    token and assigns [headerToken], [blockExpression] and [label]; its
    [signature] argument is not assigned to any field. *)
Definition new_BlockExpression (headerToken : Token) (signature : FunctionSignature)
    (blockExpression : TokenExpression) (label : option string)
  : Result TokenExpression :=
  if bool_decide (type headerToken = TokenType.Block)
     || bool_decide (type headerToken = TokenType.Loop)
     || bool_decide (type headerToken = TokenType.If)
  then Ok (BlockExpression headerToken label blockExpression)
  else Throw AssertionFailed.
End TypeResolution.

(** ** Functions, exports and the module *)

(** Modelled from the spec: the export kinds of [common/export_types]
    (absent from src/); the file uses only [ExportType.Func]. *)
Module ExportType.
Inductive t : Type := Func | Table | Memory | Global.

#[global] Instance eq_dec : EqDecision t.
Proof. solve_decision. Defined.
End ExportType.

Record ExportExpression : Type := mkExportExpression {
  exportName : string;
  exportType : ExportType.t;
  exportReferenceIndex : option number;
  exportReferenceName : option string;
}.

Section Exports.
(** [Token.extractName] (of [common/token]) and [Number.parseInt] are not
    code of this file. *)
Variable Token_extractName : Token → string.
Variable Number_parseInt : string → number.

Definition getExportName (exportName : Token) : Result string :=
  if bool_decide (type exportName ≠ TokenType.Text)
  then Throw UnexpectedExportName
  else Ok (Token_extractName exportName).

Definition getExportType (exportType : Token) : Result ExportType.t :=
  if bool_decide (type exportType ≠ TokenType.Func)
  then Throw UnexpectedExportType
  else Ok ExportType.Func.

Definition getExportReference (exportReference : Token)
  : Result (option number * option string) :=
  match type exportReference with
  | TokenType.Nat => Ok (Some (Number_parseInt (lexeme exportReference)), None)
  | TokenType.Var => Ok (None, Some (lexeme exportReference))
  | _ => Throw UnexpectedExportID
  end.

(** The implementation signature of the [ExportExpression] constructor:
    each argument is either the plain value of the inline-export overload
    ([inl]) or a [Token] ([inr]).  Both fields start as [null]. *)
Definition new_ExportExpression (exportName : string + Token)
    (exportType : ExportType.t + Token) (exportReference : number + Token)
  : Result ExportExpression :=
  name ← match exportName with
         | inl s => Ok s
         | inr tok => getExportName tok
         end;
  ty ← match exportType with
       | inr tok => getExportType tok
       | inl t => Ok t
       end;
  ref ← match exportReference with
        | inl n => Ok (Some n, None)
        | inr tok => getExportReference tok
        end;
  Ok (mkExportExpression name ty ref.1 ref.2).
End Exports.

(** The wrapper of a function body. *)
Record FunctionBody : Type := mkFunctionBody { body : TokenExpression }.

(** A [FunctionExpression] as its constructor leaves it.  The field
    [hasInlineExport] is assigned [inlineExportName !== null] there and
    nowhere else, so it is a function of [inlineExportName]. *)
Record FunctionExpression : Type := mkFunctionExpression {
  functionSignature : FunctionSignature;
  functionBody : FunctionBody;
  functionName : option string;
  inlineExportName : option string;
  paramNames : list (option string);
  localTypes : list ValueType;
  localNames : list (option string);
}.

Definition hasInlineExport (f : FunctionExpression) : bool :=
  bool_decide (inlineExportName f ≠ None).

Definition new_FunctionExpression (functionName inlineExportName : option string)
    (paramTypes : list ValueType) (paramNames : list (option string))
    (returnTypes localTypes : list ValueType) (localNames : list (option string))
    (body : TokenExpression) : Result FunctionExpression :=
  if negb (bool_decide (length paramTypes = length paramNames))
  then Throw AssertionFailed
  else if negb (bool_decide (length localTypes = length localNames))
  then Throw AssertionFailed
  else Ok (mkFunctionExpression (mkFunctionSignature paramTypes returnTypes)
             (mkFunctionBody body) functionName inlineExportName
             paramNames localTypes localNames).

Definition getID (f : FunctionExpression) : option string := functionName f.

Definition FunctionExpression_getSignature (f : FunctionExpression)
  : FunctionSignature := functionSignature f.

(** [for (const [i, x] of xs.entries()) if (p(x)) return i], started at
    index [i]; [None] when the loop runs to its end. *)
Fixpoint findIndexFrom {A} (p : A → bool) (xs : list A) (i : nat) : option nat :=
  match xs with
  | [] => None
  | x :: xs' => if p x then Some i else findIndexFrom p xs' (S i)
  end.

(** [name === nameToResolve] on a slot that is a string or [null]. *)
Definition resolveVariableIndex (f : FunctionExpression) (nameToResolve : string)
  : Result nat :=
  match findIndexFrom (λ name, bool_decide (name = Some nameToResolve))
          (paramNames f ++ localNames f) 0 with
  | Some i => Ok i
  | None => Throw ParameterNameNotFound
  end.

Record ModuleExpression : Type := mkModuleExpression {
  globalTypes : list FunctionSignature;
  functions : list FunctionExpression;
  globals : list FunctionExpression;
  exportExpressions : list ExportExpression;
}.

(** The field initialisers of the class. *)
Definition emptyModule : ModuleExpression := mkModuleExpression [] [] [] [].

Definition addExportExpression (m : ModuleExpression) (e : ExportExpression)
  : ModuleExpression :=
  mkModuleExpression (globalTypes m) (functions m) (globals m)
    (exportExpressions m ++ [e]).

(** The scan of [addGlobalType]: [true] when some existing type is
    [isEqual] to the new one (the early [return]). *)
Fixpoint existsEqual (existing : list FunctionSignature) (t : FunctionSignature) : bool :=
  match existing with
  | [] => false
  | existingType :: rest => if isEqual existingType t then true else existsEqual rest t
  end.

Definition addGlobalType (m : ModuleExpression) (t : FunctionSignature)
  : ModuleExpression :=
  if existsEqual (globalTypes m) t then m
  else mkModuleExpression (globalTypes m ++ [t]) (functions m) (globals m)
         (exportExpressions m).

(** [resolveGlobalTypeIndex]: the failing [assert(false, ...)] throws, so
    the [return -1] after it is never reached. *)
Definition resolveGlobalTypeIndex (m : ModuleExpression) (t : FunctionSignature)
  : Result nat :=
  match findIndexFrom (λ existing_type, isEqual existing_type t) (globalTypes m) 0 with
  | Some i => Ok i
  | None => Throw AssertionFailed
  end.

Section ModuleMutators.
Variable Token_extractName : Token → string.
Variable Number_parseInt : string → number.

(** [addFunctionExpression].  The guard [hasInlineExport] holds exactly
    when [inlineExportName] is not [null] (see [hasInlineExport]), which
    is what the [!] of the constructor argument relies on; the index
    argument is [this.functions.length - 1], read after the [push]. *)
Definition addFunctionExpression (m : ModuleExpression) (f : FunctionExpression)
  : Result ModuleExpression :=
  let m1 := mkModuleExpression (globalTypes m) (functions m ++ [f]) (globals m)
              (exportExpressions m) in
  let m2 := addGlobalType m1 (FunctionExpression_getSignature f) in
  let m3 := mkModuleExpression (globalTypes m2) (functions m2) (globals m2 ++ [f])
              (exportExpressions m2) in
  match inlineExportName f with
  | Some name =>
      e ← new_ExportExpression Token_extractName Number_parseInt
            (inl name) (inl ExportType.Func)
            (inl (Num (Z.of_nat (length (functions m3)) - 1)));
      Ok (addExportExpression m3 e)
  | None => Ok m3
  end.

(** The constructor: [for (const child of childNodes)], a child being a
    [FunctionExpression] ([inl]) or an [ExportExpression] ([inr]). *)
Fixpoint addChildren (m : ModuleExpression)
    (childNodes : list (FunctionExpression + ExportExpression))
  : Result ModuleExpression :=
  match childNodes with
  | [] => Ok m
  | inl f :: rest => m' ← addFunctionExpression m f; addChildren m' rest
  | inr e :: rest => addChildren (addExportExpression m e) rest
  end.

Definition new_ModuleExpression
    (childNodes : list (FunctionExpression + ExportExpression))
  : Result ModuleExpression :=
  addChildren emptyModule childNodes.

(** The mutators of a module, for sequences of them. *)
Inductive ModuleOp : Type :=
| AddFunctionExpression (f : FunctionExpression)
| AddExportExpression (e : ExportExpression)
| AddGlobalType (t : FunctionSignature).

Definition applyOp (m : ModuleExpression) (op : ModuleOp) : Result ModuleExpression :=
  match op with
  | AddFunctionExpression f => addFunctionExpression m f
  | AddExportExpression e => Ok (addExportExpression m e)
  | AddGlobalType t => Ok (addGlobalType m t)
  end.

Fixpoint applyOps (m : ModuleExpression) (ops : list ModuleOp) : Result ModuleExpression :=
  match ops with
  | [] => Ok m
  | op :: rest => m' ← applyOp m op; applyOps m' rest
  end.
End ModuleMutators.

(** ** Reference definitions for the statements *)

(** The token stream the specification assigns to an expression:
    operands left to right then the operator; header, body, [end]. *)
Fixpoint flatten (e : TokenExpression) : list Token :=
  let item (o : Token + TokenExpression) :=
    match o with
    | inl t => [t]
    | inr e' => flatten e'
    end in
  match e with
  | OperationTree operator operands => flat_map item operands ++ [operator]
  | UnfoldedTokenExpression tokens => flat_map item tokens
  | EmptyTokenExpression => []
  | BlockExpression headerToken _ blockExpression =>
      [headerToken] ++ flatten blockExpression ++ [createEndToken headerToken]
  end.

(** No [BlockExpression] occurs in the expression. *)
Fixpoint blockFree (e : TokenExpression) : bool :=
  let item (o : Token + TokenExpression) :=
    match o with
    | inl _ => true
    | inr e' => blockFree e'
    end in
  match e with
  | OperationTree _ operands => forallb item operands
  | UnfoldedTokenExpression tokens => forallb item tokens
  | EmptyTokenExpression => true
  | BlockExpression _ _ _ => false
  end.

Section BlocksResolve.
Variable Token_getConsumedTypes : Token → list ValueType.
Variable Token_getReturnTypes : Token → list ValueType.

(** Every [BlockExpression] of the expression has a body whose type
    resolution succeeds, i.e. [getSignature] returns for each block. *)
Fixpoint blocksResolve (e : TokenExpression) : bool :=
  let item (o : Token + TokenExpression) :=
    match o with
    | inl _ => true
    | inr e' => blocksResolve e'
    end in
  match e with
  | OperationTree _ operands => forallb item operands
  | UnfoldedTokenExpression tokens => forallb item tokens
  | EmptyTokenExpression => true
  | BlockExpression _ _ blockExpression =>
      succeeds (getSignature Token_getConsumedTypes Token_getReturnTypes blockExpression)
      && blocksResolve blockExpression
  end.
End BlocksResolve.

(** The export entry the inline shorthand of a function stands for, the
    function being added at position [index]. *)
Definition inlineExports (f : FunctionExpression) (index : nat) : list ExportExpression :=
  match inlineExportName f with
  | Some name =>
      [mkExportExpression name ExportType.Func (Some (Num (Z.of_nat index))) None]
  | None => []
  end.

(** The signature a mutator hands to [addGlobalType], if any. *)
Definition opSignature (op : ModuleOp) : option FunctionSignature :=
  match op with
  | AddFunctionExpression f => Some (FunctionExpression_getSignature f)
  | AddExportExpression _ => None
  | AddGlobalType t => Some t
  end.

(** The mutator a child of the constructor stands for. *)
Definition childOp (child : FunctionExpression + ExportExpression) : ModuleOp :=
  match child with
  | inl f => AddFunctionExpression f
  | inr e => AddExportExpression e
  end.

(** The pop order the specification describes for a stack-form opcode:
    the RIGHTMOST declared consumed type is matched against the topmost
    stack entry, i.e. the declared list is popped in reverse. *)
Definition popConsumedRightmostFirst (consumed stack : list ValueType)
  : Result (list ValueType) :=
  popConsumed (reverse consumed) stack.

(** ** The later revision of the block class *)

(** The [BlockExpression] and [BlockSignature] classes of the later
    revision of the file, in which the constructor takes the parameter
    and result types of the typeuse and stores the signature built from
    them.  Only the parts that decide the signature are embedded. *)
Module Revision2.
Record BlockSignature : Type := mkBlockSignature {
  blockType : TokenType.t;
  name : option string;
  signatureType : FunctionSignature;
}.

Definition new_BlockSignature (blockType : TokenType.t) (name : option string)
    (paramTypes returnTypes : list ValueType) : Result BlockSignature :=
  if bool_decide (blockType = TokenType.Block)
     || bool_decide (blockType = TokenType.Loop)
     || bool_decide (blockType = TokenType.If)
  then Ok (mkBlockSignature blockType name (mkFunctionSignature paramTypes returnTypes))
  else Throw AssertionFailed.

Record BlockExpression : Type := mkBlockExpression {
  body : TokenExpression;
  signature : BlockSignature;
  headerToken : Token;
}.

Definition new_BlockExpression (headerToken : Token) (name : option string)
    (paramTypes returnTypes : list ValueType) (blockExpression : TokenExpression)
  : Result BlockExpression :=
  signature ← new_BlockSignature (type headerToken) name paramTypes returnTypes;
  Ok (mkBlockExpression blockExpression signature headerToken).

Definition getSignatureType (b : BlockExpression) : FunctionSignature :=
  signatureType (signature b).

Definition getBlockType (b : BlockExpression) : TokenType.t :=
  blockType (signature b).

Definition getName (b : BlockExpression) : option string := name (signature b).

Definition hasName (b : BlockExpression) : bool :=
  bool_decide (name (signature b) ≠ None).

Definition getParamTypes (b : BlockExpression) : list ValueType :=
  paramTypes (signatureType (signature b)).

Definition getReturnTypes (b : BlockExpression) : list ValueType :=
  returnTypes (signatureType (signature b)).

Definition getBody (b : BlockExpression) : TokenExpression := body b.

(** [SignatureType.isEmpty]. *)
Definition isEmpty (t : FunctionSignature) : bool :=
  bool_decide (length (paramTypes t) = 0) && bool_decide (length (returnTypes t) = 0).
End Revision2.

(** ** A sample opcode table and sample inputs *)

(** Modelled from the spec: a fragment of the static opcode table of
    [common/opcode] (absent from src/), with the stack effects the
    WebAssembly standard gives these opcodes, declared left to right with
    the last operand on top of the stack.  A token that is not an opcode
    has no stack effect. *)
Module Sample.
Definition getConsumedTypes (t : Token) : list ValueType :=
  match opcodeType t with
  | Some OpcodeType.I32Eq | Some OpcodeType.I32Add => [I32; I32]
  | Some OpcodeType.I64Eq => [I64; I64]
  | Some OpcodeType.F64Add => [F64; F64]
  | Some OpcodeType.F64Store => [I32; F64]
  | _ => []
  end.

Definition getReturnTypes (t : Token) : list ValueType :=
  match opcodeType t with
  | Some OpcodeType.I32Const | Some OpcodeType.I32Eq
  | Some OpcodeType.I64Eq | Some OpcodeType.I32Add => [I32]
  | Some OpcodeType.I64Const => [I64]
  | Some OpcodeType.F32Const => [F32]
  | Some OpcodeType.F64Const | Some OpcodeType.F64Add => [F64]
  | _ => []
  end.

Definition extractName (t : Token) : string := lexeme t.

(** A stand-in for [Number.parseInt] on the lexemes of the examples,
    which are plain decimal numerals of fewer than sixteen digits: the
    value of the leading decimal digits, [NaN] when there is none.  It
    is not [Number.parseInt] on other strings (no sign, no blanks, no
    [0x] prefix, no rounding to a double); the theorems take
    [Number.parseInt] as a parameter and do not depend on it. *)
Definition digit (c : Ascii.ascii) : option Z :=
  let n := Z.of_nat (Ascii.nat_of_ascii c) in
  if bool_decide (48 ≤ n ≤ 57)%Z then Some (n - 48)%Z else None.

Fixpoint leadingDigits (s : string) (acc : option Z) : option Z :=
  match s with
  | EmptyString => acc
  | String c rest =>
      match digit c with
      | Some d => leadingDigits rest (Some (10 * default 0 acc + d))%Z
      | None => acc
      end
  end.

Definition parseInt (s : string) : number :=
  match leadingDigits s None with
  | Some z => Num z
  | None => NaN
  end.

Definition instr (lexeme : string) (col : nat) (op : OpcodeType.t) : Token :=
  mkToken TokenType.Instr lexeme 1 col col (Some op) None.

Definition nat_lit (lexeme : string) (col : nat) : Token :=
  mkToken TokenType.Nat lexeme 1 col col None None.

Definition block_kw (col : nat) : Token :=
  mkToken TokenType.Block "block" 1 col col (Some OpcodeType.Block) None.

Definition loop_kw (col : nat) : Token :=
  mkToken TokenType.Loop "loop" 1 col col (Some OpcodeType.Loop) None.

Definition nop : Token := instr "nop" 8 OpcodeType.Nop.
Definition i32_const (col : nat) : Token := instr "i32.const" col OpcodeType.I32Const.
Definition f64_const (col : nat) : Token := instr "f64.const" col OpcodeType.F64Const.
Definition i32_eq (col : nat) : Token := instr "i32.eq" col OpcodeType.I32Eq.
Definition i32_add (col : nat) : Token := instr "i32.add" col OpcodeType.I32Add.
Definition f64_store (col : nat) : Token := instr "f64.store" col OpcodeType.F64Store.

(** [i32.const 0 f64.const 1 f64.store] in stack form. *)
Definition store_stack_form : TokenExpression :=
  UnfoldedTokenExpression
    [inl (i32_const 0); inl (nat_lit "0" 10); inl (f64_const 12);
     inl (nat_lit "1" 22); inl (f64_store 24)].

(** The same instructions without the final opcode. *)
Definition store_operands : TokenExpression :=
  UnfoldedTokenExpression
    [inl (i32_const 0); inl (nat_lit "0" 10); inl (f64_const 12);
     inl (nat_lit "1" 22)].

(** [(f64.store (i32.const 0) (f64.const 1))], the folded form. *)
Definition store_folded : TokenExpression :=
  OperationTree (f64_store 1)
    [inr (OperationTree (i32_const 12) [inl (nat_lit "0" 22)]);
     inr (OperationTree (f64_const 26) [inl (nat_lit "1" 36)])].

(** [(i32.eq (i32.const 0) (i32.const 0))]. *)
Definition eq_folded : TokenExpression :=
  OperationTree (i32_eq 1)
    [inr (OperationTree (i32_const 9) [inl (nat_lit "0" 19)]);
     inr (OperationTree (i32_const 23) [inl (nat_lit "0" 33)])].

(** [(block $L nop)]. *)
Definition block_nop : TokenExpression :=
  BlockExpression (block_kw 1) (Some "$L") (UnfoldedTokenExpression [inl nop]).

(** [(block i32.add)]: a block whose body pops from an empty stack. *)
Definition block_underflow : TokenExpression :=
  BlockExpression (block_kw 1) None (UnfoldedTokenExpression [inl (i32_add 7)]).

(** [(i32.eq (i32.const 0) (loop i32.add))]: an operand that is a loop
    whose body pops from an empty stack. *)
Definition tree_with_bad_loop : TokenExpression :=
  OperationTree (i32_eq 1)
    [inr (OperationTree (i32_const 9) [inl (nat_lit "0" 19)]);
     inr (BlockExpression (loop_kw 23) None
            (UnfoldedTokenExpression [inl (i32_add 28)]))].

(** The typeuse [(param i32 i32) (result i32)]. *)
Definition two_params_one_result : FunctionSignature :=
  mkFunctionSignature [I32; I32] [I32].

(** The body [i32.add] of a typed block or loop. *)
Definition add_body (col : nat) : TokenExpression :=
  UnfoldedTokenExpression [inl (i32_add col)].

(** What the constructor leaves of
    [(loop (param i32 i32) (result i32) i32.add)]. *)
Definition typed_loop : TokenExpression :=
  BlockExpression (loop_kw 1) None (add_body 34).

(** The typeuse [(param i32) (result)] of the [block_one_param] test
    source. *)
Definition one_param : FunctionSignature := mkFunctionSignature [I32] [].

Definition sig_f64_f64 : FunctionSignature := mkFunctionSignature [F64; F64] [F64].
Definition sig_empty : FunctionSignature := mkFunctionSignature [] [].

(** [(func $add (export "fn") (param $a f64) (param $b f64) (result f64) ...)]. *)
Definition fn_add : FunctionExpression :=
  mkFunctionExpression sig_f64_f64 (mkFunctionBody EmptyTokenExpression)
    (Some "$add") (Some "fn") [Some "$a"; Some "$b"] [F64] [Some "$tmp"].

(** [(func nop)]. *)
Definition fn_nop : FunctionExpression :=
  mkFunctionExpression sig_empty
    (mkFunctionBody (UnfoldedTokenExpression [inl nop])) None None [] [] [].
End Sample.

(** ** Further methods of the module *)

Definition getGlobalTypes (m : ModuleExpression) : list FunctionSignature :=
  globalTypes m.

Definition getFunctionSignatures (m : ModuleExpression) : list FunctionSignature :=
  FunctionExpression_getSignature <$> functions m.

Definition getFunctionBodies (m : ModuleExpression) : list FunctionBody :=
  functionBody <$> functions m.

(** [resolveGlobalExpressionIndex]: the first global whose [getID()] is
    the name; the failing [assert(false, 'Global not found!')] throws. *)
Definition resolveGlobalExpressionIndex (m : ModuleExpression) (name : string)
  : Result nat :=
  match findIndexFrom (λ existing_type, bool_decide (getID existing_type = Some name))
          (globals m) 0 with
  | Some i => Ok i
  | None => Throw AssertionFailed
  end.

(** The function children and the export children of a constructor call,
    each in the order given. *)
Definition childFunctions (childNodes : list (FunctionExpression + ExportExpression))
  : list FunctionExpression :=
  omap (λ child, match child with inl f => Some f | inr _ => None end) childNodes.

Definition childExports (childNodes : list (FunctionExpression + ExportExpression))
  : list ExportExpression :=
  omap (λ child, match child with inl _ => None | inr e => Some e end) childNodes.

(** The exports a list of constructor children produces, in order, when
    the first function child is added at position [index]: an export
    child gives itself, a function child gives its inline export. *)
Fixpoint exportsFrom (index : nat)
    (childNodes : list (FunctionExpression + ExportExpression))
  : list ExportExpression :=
  match childNodes with
  | [] => []
  | inl f :: rest => inlineExports f index ++ exportsFrom (S index) rest
  | inr e :: rest => e :: exportsFrom index rest
  end.

(** * Properties *)

(** ** The error monad *)

Lemma bind_Ok {A B} (m : Result A) (f : A → Result B) (b : B) :
  m ≫= f = Ok b ↔ ∃ a, m = Ok a ∧ f a = Ok b.
Proof.
  destruct m as [a|e]; simpl.
  - split; [eauto | intros (a' & [= <-] & ?); done].
  - split; [done | intros (a' & [=] & _)].
Qed.

Lemma fmap_Ok {A B} (m : Result A) (f : A → B) (b : B) :
  f <$> m = Ok b ↔ ∃ a, m = Ok a ∧ b = f a.
Proof.
  destruct m as [a|e]; simpl.
  - split; [intros [= <-]; eauto | intros (a' & [= <-] & ->); done].
  - split; [done | intros (a' & [=] & _)].
Qed.

Lemma succeeds_true {A} (m : Result A) : succeeds m = true ↔ ∃ a, m = Ok a.
Proof.
  destruct m; simpl; split; eauto; try done. intros (? & [=]).
Qed.

(** ** Induction over nested token expressions *)

Definition onExpr (P : TokenExpression → Prop) (o : Token + TokenExpression) : Prop :=
  match o with
  | inl _ => True
  | inr e => P e
  end.

Lemma TokenExpression_ind (P : TokenExpression → Prop)
    (Htree : ∀ operator operands,
        Forall (onExpr P) operands → P (OperationTree operator operands))
    (Hunfolded : ∀ tokens,
        Forall (onExpr P) tokens → P (UnfoldedTokenExpression tokens))
    (Hempty : P EmptyTokenExpression)
    (Hblock : ∀ headerToken label blockExpression,
        P blockExpression → P (BlockExpression headerToken label blockExpression)) :
  ∀ e, P e.
Proof.
  fix IH 1. intros e.
  assert (Hitems : ∀ items : list (Token + TokenExpression), Forall (onExpr P) items).
  { fix IHitems 1. intros [|o items].
    - constructor.
    - constructor; [destruct o; simpl; [exact I | apply IH] | apply IHitems]. }
  destruct e.
  - apply Htree, Hitems.
  - apply Hunfolded, Hitems.
  - apply Hempty.
  - apply Hblock, IH.
Qed.

(** ** [flatMap] and the token stream of [unfold] *)

Lemma flatMapM_Ok {A B} (f : A → Result (list B)) (l : list A) (ts : list B) :
  flatMapM f l = Ok ts ↔ ∃ tss, Forall2 (λ a t, f a = Ok t) l tss ∧ ts = concat tss.
Proof.
  revert ts. induction l as [|x l IH]; intros ts; simpl.
  - split.
    + intros [= <-]. exists []. split; [constructor | done].
    + intros (tss & Hall & ->). by inversion Hall.
  - rewrite bind_Ok. split.
    + intros (ys & Hx & Hrest). apply bind_Ok in Hrest as (zs & Hl & [= <-]).
      apply IH in Hl as (tss & Hall & ->).
      exists (ys :: tss). split; [by constructor | done].
    + intros (tss & Hall & ->). inversion Hall as [|? ys ? tss' Hx Hall']; subst.
      exists ys. split; [done|]. apply bind_Ok. exists (concat tss').
      split; [|done]. apply IH. eauto.
Qed.

Lemma flatMapM_succeeds {A B} (f : A → Result (list B)) (l : list A) :
  succeeds (flatMapM f l) = forallb (λ a, succeeds (f a)) l.
Proof.
  induction l as [|x l IH]; simpl; [done|].
  destruct (f x) as [ys|err]; simpl; [|done].
  rewrite <- IH. by destruct (flatMapM f l).
Qed.

Section UnfoldProperties.
Variable Token_getConsumedTypes : Token → list ValueType.
Variable Token_getReturnTypes : Token → list ValueType.

#[local] Abbreviation unfold' := (unfold Token_getConsumedTypes Token_getReturnTypes).
#[local] Abbreviation getSignature' := (getSignature Token_getConsumedTypes Token_getReturnTypes).
#[local] Abbreviation blocksResolve' := (blocksResolve Token_getConsumedTypes Token_getReturnTypes).

Lemma unfold_tree operator operands :
  unfold' (OperationTree operator operands) =
  (unfoldedOperands ← flatMapM (itemTokens unfold') operands;
   Ok (PureUnfoldedTokenExpression (unfoldedOperands ++ [operator]))).
Proof. done. Qed.

Lemma unfold_unfolded tokens :
  unfold' (UnfoldedTokenExpression tokens) =
  (unfoldedOperands ← flatMapM (itemTokens unfold') tokens;
   Ok (PureUnfoldedTokenExpression unfoldedOperands)).
Proof. done. Qed.

Lemma unfold_block headerToken label blockExpression :
  unfold' (BlockExpression headerToken label blockExpression) =
  (signature ← getSignature' blockExpression;
   body ← unfold' blockExpression;
   Ok (PureUnfoldedBlockExpression signature
         ([headerToken] ++ tokensOf body ++ [createEndToken headerToken]))).
Proof. done. Qed.

Lemma flatten_items (items : list (Token + TokenExpression)) (tss : list (list Token)) :
  Forall (onExpr (λ e, ∀ p, unfold' e = Ok p → tokensOf p = flatten e)) items →
  Forall2 (λ o ts, itemTokens unfold' o = Ok ts) items tss →
  concat tss =
  flat_map (λ o, match o with inl t => [t] | inr e' => flatten e' end) items.
Proof.
  intros Hitems Hall. induction Hall as [|o ts items tss Ho Hall IH]; [done|].
  inversion Hitems as [|? ? Hhead Htail]; subst. simpl. f_equal; [|by apply IH].
  destruct o as [t|e]; simpl in *.
  - by injection Ho as <-.
  - apply fmap_Ok in Ho as (p & Hp & ->). by apply Hhead.
Qed.

(** Whenever [unfold] returns, its tokens are the flat token stream. *)
Lemma unfold_flatten e p : unfold' e = Ok p → tokensOf p = flatten e.
Proof.
  revert p. induction e as [operator operands IH|tokens IH| |headerToken label body IH]
    using TokenExpression_ind; intros p.
  - rewrite unfold_tree, bind_Ok. intros (ts & Hts & [= <-]).
    apply flatMapM_Ok in Hts as (tss & Hall & ->). simpl.
    f_equal. by apply flatten_items.
  - rewrite unfold_unfolded, bind_Ok. intros (ts & Hts & [= <-]).
    apply flatMapM_Ok in Hts as (tss & Hall & ->). simpl.
    by apply flatten_items.
  - by intros [= <-].
  - rewrite unfold_block, bind_Ok. intros (sig & _ & Hrest).
    apply bind_Ok in Hrest as (pb & Hpb & [= <-]). simpl.
    by rewrite (IH pb Hpb).
Qed.

Lemma succeeds_items (items : list (Token + TokenExpression)) :
  Forall (onExpr (λ e, succeeds (unfold' e) = blocksResolve' e)) items →
  forallb (λ o, succeeds (itemTokens unfold' o)) items =
  forallb (λ o, match o with inl _ => true | inr e' => blocksResolve' e' end) items.
Proof.
  induction 1 as [|o items Ho _ IH]; [done|]. simpl. f_equal; [|done].
  destruct o as [t|e]; simpl in *; [done|].
  rewrite <- Ho. by destruct (unfold' e).
Qed.

(** [unfold] returns exactly when every block of the expression has a
    body whose type resolution succeeds. *)
Lemma unfold_succeeds e : succeeds (unfold' e) = blocksResolve' e.
Proof.
  induction e as [operator operands IH|tokens IH| |headerToken label body IH]
    using TokenExpression_ind.
  - rewrite unfold_tree. simpl. rewrite <- (succeeds_items _ IH), <- flatMapM_succeeds.
    by destruct (flatMapM _ operands).
  - rewrite unfold_unfolded. simpl. rewrite <- (succeeds_items _ IH), <- flatMapM_succeeds.
    by destruct (flatMapM _ tokens).
  - done.
  - rewrite unfold_block. simpl. rewrite <- IH.
    destruct (getSignature' body); simpl; [|done]. by destruct (unfold' body).
Qed.

Lemma blockFree_blocksResolve e : blockFree e = true → blocksResolve' e = true.
Proof.
  induction e as [operator operands IH|tokens IH| |headerToken label body IH]
    using TokenExpression_ind; simpl; try done.
  - induction IH as [|o items Ho _ IHitems]; simpl; [done|].
    intros [Hhead Htail]%andb_true_iff. apply andb_true_iff. split; [|by apply IHitems].
    destruct o; [done | by apply Ho].
  - induction IH as [|o items Ho _ IHitems]; simpl; [done|].
    intros [Hhead Htail]%andb_true_iff. apply andb_true_iff. split; [|by apply IHitems].
    destruct o; [done | by apply Ho].
Qed.

(** A block-free expression always unfolds, to a plain
    [PureUnfoldedTokenExpression] holding its flat token stream. *)
Lemma unfold_blockFree e :
  blockFree e = true → unfold' e = Ok (PureUnfoldedTokenExpression (flatten e)).
Proof.
  intros Hfree. pose proof (blockFree_blocksResolve e Hfree) as Hres.
  rewrite <- unfold_succeeds in Hres. apply succeeds_true in Hres as [p Hp].
  pose proof (unfold_flatten e p Hp) as Htok. rewrite Hp. f_equal.
  destruct e; simpl in Hfree; try done.
  - rewrite unfold_tree in Hp. apply bind_Ok in Hp as (? & _ & [= <-]). by rewrite <- Htok.
  - rewrite unfold_unfolded in Hp. apply bind_Ok in Hp as (? & _ & [= <-]). by rewrite <- Htok.
  - injection Hp as <-. by rewrite <- Htok.
Qed.

(** A stack-form sequence of bare tokens unfolds to itself. *)
Lemma unfold_bare_tokens (ts : list Token) :
  unfold' (UnfoldedTokenExpression (inl <$> ts)) = Ok (PureUnfoldedTokenExpression ts).
Proof.
  rewrite unfold_unfolded.
  enough (flatMapM (itemTokens unfold') (inl <$> ts) = Ok ts) as Hts.
  { by rewrite Hts. }
  induction ts as [|t ts IH]; [done|].
  change (inl <$> t :: ts) with (@inl Token TokenExpression t :: (inl <$> ts)).
  simpl. by rewrite IH.
Qed.
End UnfoldProperties.

(** ** The pop loop *)

(** The loop accepts exactly the stacks that end with the consumed list
    REVERSED: its first element is compared with the top of the stack. *)
Lemma popConsumed_Ok (consumed stack stack' : list ValueType) :
  popConsumed consumed stack = Ok stack' ↔ stack = stack' ++ reverse consumed.
Proof.
  revert stack. induction consumed as [|c rest IH]; intros stack; simpl.
  - rewrite app_nil_r. split; [by intros [= ->] | by intros ->].
  - rewrite reverse_cons, app_assoc. destruct (last stack) as [top|] eqn:Hlast.
    + apply last_Some in Hlast as [l' ->]. rewrite removelast_last.
      destruct (decide (top = c)) as [->|Hne].
      * rewrite IH. split; [by intros -> | by intros [-> _]%app_inj_tail].
      * split; [done|]. intros [_ ?]%app_inj_tail. done.
    + apply last_None in Hlast as ->. split; [done|].
      intros H. symmetry in H. by apply app_nil in H as [_ ?].
Qed.

Lemma popConsumed_nil (stack : list ValueType) : popConsumed [] stack = Ok stack.
Proof. done. Qed.

Lemma popConsumed_Throw (consumed stack : list ValueType) (err : Error) :
  popConsumed consumed stack = Throw err → err = TypeMismatch.
Proof.
  revert stack. induction consumed as [|c rest IH]; intros stack; simpl; [done|].
  destruct (last stack); [|by intros [= <-]].
  case_decide; [apply IH | by intros [= <-]].
Qed.

(** ** Type resolution *)

Section ResolveProperties.
Variable Token_getConsumedTypes : Token → list ValueType.
Variable Token_getReturnTypes : Token → list ValueType.

#[local] Abbreviation resolveTypes' :=
  (resolveTypes Token_getConsumedTypes Token_getReturnTypes).
#[local] Abbreviation itemTypes' :=
  (itemTypes Token_getConsumedTypes Token_getReturnTypes resolveTypes').
#[local] Abbreviation getReturnTypes' :=
  (getReturnTypes Token_getConsumedTypes Token_getReturnTypes).
#[local] Abbreviation getConsumedTypes' :=
  (getConsumedTypes Token_getConsumedTypes Token_getReturnTypes).

Lemma resolveTypes_tree operator operands :
  resolveTypes' (OperationTree operator operands) =
  (stack ← evalItems itemTypes' operands [];
   if decide (stack = Token_getConsumedTypes operator)
   then Ok ([], Token_getReturnTypes operator)
   else Throw TypeMismatchExpected).
Proof. done. Qed.

Lemma resolveTypes_unfolded tokens :
  resolveTypes' (UnfoldedTokenExpression tokens) =
  (stack ← evalItems itemTypes' tokens []; Ok ([], stack)).
Proof. done. Qed.

Lemma resolveTypes_block headerToken label blockExpression :
  resolveTypes' (BlockExpression headerToken label blockExpression) =
  (ct ← resolveTypes' blockExpression; Ok (ct.1, ct.2)).
Proof. done. Qed.

Lemma evalItems_cons {A} (typesOf : A → Result (list ValueType * list ValueType))
    (x : A) (rest : list A) (stack : list ValueType) :
  evalItems typesOf (x :: rest) stack =
  (ct ← typesOf x; stack' ← popConsumed ct.1 stack; evalItems typesOf rest (stack' ++ ct.2)).
Proof. done. Qed.

(** No expression consumes anything from the enclosing stack: the memo
    field [consumedTypes] of every class is the empty list. *)
Lemma resolveTypes_consumed e ct : resolveTypes' e = Ok ct → ct.1 = [].
Proof.
  revert ct. induction e as [operator operands _|tokens _| |headerToken label body IH]
    using TokenExpression_ind; intros ct.
  - rewrite resolveTypes_tree, bind_Ok. intros (stack & _ & Hif).
    destruct (decide (stack = _)); [by injection Hif as <- | done].
  - rewrite resolveTypes_unfolded, bind_Ok. by intros (stack & _ & [= <-]).
  - by intros [= <-].
  - rewrite resolveTypes_block, bind_Ok. intros (ct' & Hbody & [= <-]).
    simpl. by apply IH.
Qed.

Lemma getSignature_Ok body sig :
  getSignature Token_getConsumedTypes Token_getReturnTypes body = Ok sig ↔
  ∃ ct, resolveTypes' body = Ok ct ∧ sig = mkFunctionSignature ct.1 ct.2.
Proof.
  unfold getSignature, getReturnTypes, getConsumedTypes.
  destruct (resolveTypes' body) as [ct|err]; simpl.
  - split; [intros [= <-]; eauto | by intros (ct' & [= <-] & ->)].
  - split; [done | by intros (ct' & [=] & _)].
Qed.

(** The signature a block resolves to never has parameters. *)
Lemma getSignature_paramTypes body sig :
  getSignature Token_getConsumedTypes Token_getReturnTypes body = Ok sig →
  paramTypes sig = [].
Proof.
  intros (ct & Hct & ->)%getSignature_Ok. simpl. by eapply resolveTypes_consumed.
Qed.

(** Operands that are nested expressions push their return types one
    after the other. *)
Lemma evalItems_expressions (es : list TokenExpression) (rs : list (list ValueType))
    (stack : list ValueType) :
  Forall2 (λ e r, getReturnTypes' e = Ok r) es rs →
  evalItems itemTypes' (inr <$> es) stack = Ok (stack ++ concat rs).
Proof.
  intros Hall. revert stack.
  induction Hall as [|e r es rs He Hall IH]; intros stack.
  - simpl. by rewrite app_nil_r.
  - change (inr <$> e :: es) with (@inr Token TokenExpression e :: (inr <$> es)).
    rewrite evalItems_cons. simpl.
    apply fmap_Ok in He as (ct & Hct & ->). rewrite Hct. simpl.
    rewrite (resolveTypes_consumed e ct Hct). simpl.
    rewrite IH. by rewrite <- app_assoc.
Qed.
End ResolveProperties.

(** ** Claims on [unfold] *)

(** How [unfold] behaves as the file is written.  An [OperationTree]
    unfolds exactly when every operand unfolds, to
    [unfold(arg1) ++ ... ++ unfold(argN) ++ [op]], a [Token] operand
    contributing itself.  A [BlockExpression] asks [getSignature] first;
    since the constructor leaves the signature memo undefined, that call
    type-checks the body, and only when it returns does [unfold] give the
    header token, the unfolded body tokens and the synthesized [end]
    token; an error of the inference escapes from [unfold].  Whenever
    [unfold] returns, its tokens are the flat token stream. *)
Theorem unfold_token_sequence
    (Token_getConsumedTypes Token_getReturnTypes : Token → list ValueType) :
  (∀ operator operands p,
      unfold Token_getConsumedTypes Token_getReturnTypes
        (OperationTree operator operands) = Ok p ↔
      ∃ tss,
        Forall2 (λ o ts,
            itemTokens (unfold Token_getConsumedTypes Token_getReturnTypes) o = Ok ts)
          operands tss
        ∧ p = PureUnfoldedTokenExpression (concat tss ++ [operator]))
  ∧ (∀ t : Token,
      itemTokens (unfold Token_getConsumedTypes Token_getReturnTypes) (inl t) = Ok [t])
  ∧ (∀ headerToken label blockExpression p,
      unfold Token_getConsumedTypes Token_getReturnTypes
        (BlockExpression headerToken label blockExpression) = Ok p ↔
      ∃ signature body,
        getSignature Token_getConsumedTypes Token_getReturnTypes blockExpression
          = Ok signature
        ∧ unfold Token_getConsumedTypes Token_getReturnTypes blockExpression = Ok body
        ∧ p = PureUnfoldedBlockExpression signature
                ([headerToken] ++ tokensOf body ++ [createEndToken headerToken]))
  ∧ (∀ headerToken label blockExpression err,
      getSignature Token_getConsumedTypes Token_getReturnTypes blockExpression
        = Throw err →
      unfold Token_getConsumedTypes Token_getReturnTypes
        (BlockExpression headerToken label blockExpression) = Throw err)
  ∧ (∀ e p,
      unfold Token_getConsumedTypes Token_getReturnTypes e = Ok p →
      tokensOf p = flatten e).
Proof.
  repeat split.
  - rewrite unfold_tree, bind_Ok. intros (ts & Hts & [= <-]).
    apply flatMapM_Ok in Hts as (tss & Hall & ->). eauto.
  - intros (tss & Hall & ->). rewrite unfold_tree, bind_Ok.
    exists (concat tss). split; [|done]. apply flatMapM_Ok. eauto.
  - rewrite unfold_block, bind_Ok. intros (sig & Hsig & Hrest).
    apply bind_Ok in Hrest as (pb & Hpb & [= <-]). eauto.
  - intros (sig & pb & Hsig & Hpb & ->). rewrite unfold_block, Hsig. simpl.
    by rewrite Hpb.
  - intros headerToken label blockExpression err Herr.
    by rewrite unfold_block, Herr.
  - apply unfold_flatten.
Qed.

(** The sixth end-to-end scenario: [(block $L nop)] unfolds to exactly
    [block, nop, end] and resolves to the empty signature. *)
Example unfold_block_nop :
  unfold Sample.getConsumedTypes Sample.getReturnTypes Sample.block_nop =
  Ok (PureUnfoldedBlockExpression Sample.sig_empty
        [Sample.block_kw 1; Sample.nop; createEndToken (Sample.block_kw 1)]).
Proof. reflexivity. Qed.

(** The third scenario's shape: [(i32.eq (i32.const 0) (i32.const 0))]
    unfolds operands first, operator last. *)
Example unfold_eq_folded :
  unfold Sample.getConsumedTypes Sample.getReturnTypes Sample.eq_folded =
  Ok (PureUnfoldedTokenExpression
        [Sample.nat_lit "0" 19; Sample.i32_const 9;
         Sample.nat_lit "0" 33; Sample.i32_const 23; Sample.i32_eq 1]).
Proof. reflexivity. Qed.

(** C1, at the failing input.  The block
    [(block (param i32 i32) (result i32) i32.add)] is constructed with
    its typeuse; the constructor drops it and leaves [Sample.block_underflow].
    The body unfolds to the token [i32.add], and the token sequence the
    claim gives for the block is [block, i32.add, end]; but [unfold] of
    the block returns nothing: [getSignature] has no stored signature,
    infers one by type-checking the body on an empty stack, and the
    'Type mismatch' of the pop loop escapes. *)
Theorem unfold_typed_block_throws :
  new_BlockExpression (Sample.block_kw 1) Sample.two_params_one_result
    (Sample.add_body 7) None
  = Ok Sample.block_underflow
  ∧ unfold Sample.getConsumedTypes Sample.getReturnTypes (Sample.add_body 7)
    = Ok (PureUnfoldedTokenExpression [Sample.i32_add 7])
  ∧ flatten Sample.block_underflow
    = [Sample.block_kw 1; Sample.i32_add 7; createEndToken (Sample.block_kw 1)]
  ∧ getSignature Sample.getConsumedTypes Sample.getReturnTypes (Sample.add_body 7)
    = Throw TypeMismatch
  ∧ unfold Sample.getConsumedTypes Sample.getReturnTypes Sample.block_underflow
    = Throw TypeMismatch
  ∧ ¬ ∃ p,
      unfold Sample.getConsumedTypes Sample.getReturnTypes Sample.block_underflow
        = Ok p
      ∧ tokensOf p = [Sample.block_kw 1; Sample.i32_add 7;
                      createEndToken (Sample.block_kw 1)].
Proof.
  do 5 (split; [reflexivity|]).
  intros (p & Hp & _). vm_compute in Hp. discriminate Hp.
Qed.

(** When [unfold] returns, as the file is written: exactly when the
    signature inference of every [BlockExpression] inside the expression
    returns, so always on an expression without blocks, where the result
    is the flat token stream; a stack-form sequence of bare tokens, such
    as the token stream of an earlier [unfold], unfolds to itself. *)
Theorem unfold_total_idempotent
    (Token_getConsumedTypes Token_getReturnTypes : Token → list ValueType) :
  (∀ e,
      succeeds (unfold Token_getConsumedTypes Token_getReturnTypes e) =
      blocksResolve Token_getConsumedTypes Token_getReturnTypes e)
  ∧ (∀ e,
      blockFree e = true →
      unfold Token_getConsumedTypes Token_getReturnTypes e =
      Ok (PureUnfoldedTokenExpression (flatten e)))
  ∧ (∀ e p,
      unfold Token_getConsumedTypes Token_getReturnTypes e = Ok p →
      unfold Token_getConsumedTypes Token_getReturnTypes
        (UnfoldedTokenExpression (inl <$> tokensOf p)) =
      Ok (PureUnfoldedTokenExpression (tokensOf p)))
  ∧ (∀ ts : list Token,
      unfold Token_getConsumedTypes Token_getReturnTypes
        (UnfoldedTokenExpression (inl <$> ts)) =
      Ok (PureUnfoldedTokenExpression ts)).
Proof.
  split; [apply unfold_succeeds|].
  split; [apply unfold_blockFree|].
  split; [intros e p _; apply unfold_bare_tokens | apply unfold_bare_tokens].
Qed.

(** The second scenario: the stack-form body
    [i32.const 0 i32.const 0 i32.eq] is its own unfolding. *)
Example unfold_stack_form_identity :
  unfold Sample.getConsumedTypes Sample.getReturnTypes
    (UnfoldedTokenExpression
       [inl (Sample.i32_const 0); inl (Sample.nat_lit "0" 10);
        inl (Sample.i32_const 12); inl (Sample.nat_lit "0" 22);
        inl (Sample.i32_eq 24)]) =
  Ok (PureUnfoldedTokenExpression
        [Sample.i32_const 0; Sample.nat_lit "0" 10;
         Sample.i32_const 12; Sample.nat_lit "0" 22; Sample.i32_eq 24]).
Proof. reflexivity. Qed.

(** C7, at the failing input.  The loop
    [(loop (param i32 i32) (result i32) i32.add)] is constructed with its
    typeuse; the constructor drops it and leaves [Sample.typed_loop].
    [unfold] of the loop does not return: [getSignature] infers the
    signature by type-checking the body on an empty stack and the
    'Type mismatch' escapes.  The token stream [loop, i32.add, end] that
    the claim expects is itself a fixed point of [unfold]. *)
Theorem unfold_typed_loop_throws :
  new_BlockExpression (Sample.loop_kw 1) Sample.two_params_one_result
    (Sample.add_body 34) None
  = Ok Sample.typed_loop
  ∧ unfold Sample.getConsumedTypes Sample.getReturnTypes Sample.typed_loop
    = Throw TypeMismatch
  ∧ succeeds (unfold Sample.getConsumedTypes Sample.getReturnTypes Sample.typed_loop)
    = false
  ∧ flatten Sample.typed_loop
    = [Sample.loop_kw 1; Sample.i32_add 34; createEndToken (Sample.loop_kw 1)]
  ∧ unfold Sample.getConsumedTypes Sample.getReturnTypes
      (UnfoldedTokenExpression (inl <$> flatten Sample.typed_loop))
    = Ok (PureUnfoldedTokenExpression (flatten Sample.typed_loop)).
Proof. repeat split. Qed.

(** The error of a nested loop's signature inference escapes through the
    enclosing operation tree: [(i32.eq (i32.const 0) (loop i32.add))]. *)
Example unfold_not_total :
  unfold Sample.getConsumedTypes Sample.getReturnTypes Sample.tree_with_bad_loop
  = Throw TypeMismatch
  ∧ ¬ ∃ p,
      unfold Sample.getConsumedTypes Sample.getReturnTypes Sample.tree_with_bad_loop
      = Ok p.
Proof.
  split; [reflexivity|]. intros (p & Hp). vm_compute in Hp. discriminate Hp.
Qed.

(** ** Claims on type resolution *)

(** C5 (amended).  Type-checking an [OperationTree(op, args)] evaluates
    the arguments on a fresh inner stack that starts empty; it succeeds
    exactly when that evaluation returns a stack equal to [op]'s declared
    consumed types bottom-to-top, fails with the 'expected ... but got'
    type error when the stack differs, and propagates an error of the
    evaluation.  On success the tree's [getReturnTypes] is [op]'s produced
    types and its [getConsumedTypes] is EMPTY: the tree's net effect on
    an enclosing stack is to push the produced types and pop nothing.
    When all arguments are nested expressions, the inner stack is the
    concatenation of their return types. *)
Theorem OperationTree_resolveTypes
    (Token_getConsumedTypes Token_getReturnTypes : Token → list ValueType)
    (operator : Token) (operands : list (Token + TokenExpression)) :
  (∀ ct,
      resolveTypes Token_getConsumedTypes Token_getReturnTypes
        (OperationTree operator operands) = Ok ct ↔
      evalItems (itemTypes Token_getConsumedTypes Token_getReturnTypes
                   (resolveTypes Token_getConsumedTypes Token_getReturnTypes))
        operands [] = Ok (Token_getConsumedTypes operator)
      ∧ ct = ([], Token_getReturnTypes operator))
  ∧ (∀ stack,
      evalItems (itemTypes Token_getConsumedTypes Token_getReturnTypes
                   (resolveTypes Token_getConsumedTypes Token_getReturnTypes))
        operands [] = Ok stack →
      stack ≠ Token_getConsumedTypes operator →
      resolveTypes Token_getConsumedTypes Token_getReturnTypes
        (OperationTree operator operands) = Throw TypeMismatchExpected)
  ∧ (∀ err,
      evalItems (itemTypes Token_getConsumedTypes Token_getReturnTypes
                   (resolveTypes Token_getConsumedTypes Token_getReturnTypes))
        operands [] = Throw err →
      resolveTypes Token_getConsumedTypes Token_getReturnTypes
        (OperationTree operator operands) = Throw err)
  ∧ (∀ ct,
      resolveTypes Token_getConsumedTypes Token_getReturnTypes
        (OperationTree operator operands) = Ok ct →
      getConsumedTypes Token_getConsumedTypes Token_getReturnTypes
        (OperationTree operator operands) = Ok []
      ∧ getReturnTypes Token_getConsumedTypes Token_getReturnTypes
          (OperationTree operator operands) = Ok (Token_getReturnTypes operator)
      ∧ ∀ rest outer,
          evalItems (itemTypes Token_getConsumedTypes Token_getReturnTypes
                       (resolveTypes Token_getConsumedTypes Token_getReturnTypes))
            (inr (OperationTree operator operands) :: rest) outer =
          evalItems (itemTypes Token_getConsumedTypes Token_getReturnTypes
                       (resolveTypes Token_getConsumedTypes Token_getReturnTypes))
            rest (outer ++ Token_getReturnTypes operator))
  ∧ (∀ es rs,
      operands = inr <$> es →
      Forall2 (λ e r,
          getReturnTypes Token_getConsumedTypes Token_getReturnTypes e = Ok r) es rs →
      evalItems (itemTypes Token_getConsumedTypes Token_getReturnTypes
                   (resolveTypes Token_getConsumedTypes Token_getReturnTypes))
        operands [] = Ok (concat rs)).
Proof.
  assert (Hiff : ∀ ct,
      resolveTypes Token_getConsumedTypes Token_getReturnTypes
        (OperationTree operator operands) = Ok ct ↔
      evalItems (itemTypes Token_getConsumedTypes Token_getReturnTypes
                   (resolveTypes Token_getConsumedTypes Token_getReturnTypes))
        operands [] = Ok (Token_getConsumedTypes operator)
      ∧ ct = ([], Token_getReturnTypes operator)).
  { intros ct. rewrite resolveTypes_tree, bind_Ok. split.
    - intros (stack & Hstack & Hif).
      destruct (decide (stack = _)) as [->|]; [|done]. by injection Hif as <-.
    - intros [Hstack ->]. eexists. split; [done|]. by rewrite decide_True. }
  split; [exact Hiff|]. split; [|split; [|split]].
  - intros stack Hstack Hne. rewrite resolveTypes_tree, Hstack. simpl.
    by rewrite decide_False.
  - intros err Herr. by rewrite resolveTypes_tree, Herr.
  - intros ct Hct. pose proof Hct as [_ ->]%Hiff. split; [|split].
    + unfold getConsumedTypes. by rewrite Hct.
    + unfold getReturnTypes. by rewrite Hct.
    + intros rest outer. rewrite evalItems_cons.
      change (itemTypes _ _ ?r (inr ?e)) with (r e). by rewrite Hct.
  - intros es rs -> Hall.
    by rewrite (evalItems_expressions _ _ es rs [] Hall).
Qed.

(** The second scenario, folded: both arguments push an [i32], the stack
    [[i32; i32]] equals what [i32.eq] consumes, and the tree returns
    [[i32]]. *)
Example resolve_eq_folded :
  resolveTypes Sample.getConsumedTypes Sample.getReturnTypes Sample.eq_folded
  = Ok ([], [I32]).
Proof. reflexivity. Qed.

(** The negative test: [(i64.eq (i32.const 0))] is rejected with the
    'expected ... but got' error. *)
Example resolve_i64_eq_mismatch :
  resolveTypes Sample.getConsumedTypes Sample.getReturnTypes
    (OperationTree (Sample.instr "i64.eq" 1 OpcodeType.I64Eq)
       [inr (OperationTree (Sample.i32_const 9) [inl (Sample.nat_lit "0" 19)])])
  = Throw TypeMismatchExpected.
Proof. reflexivity. Qed.

(** C5, counterexample.  [(i32.eq (i32.const 0) (i32.const 0))]
    type-checks, and its [getConsumedTypes] is not the consumed types
    [[i32; i32]] of [i32.eq] but the empty list. *)
Lemma eq_folded_consumes_nothing :
  getReturnTypes Sample.getConsumedTypes Sample.getReturnTypes Sample.eq_folded
  = Ok (Sample.getReturnTypes (Sample.i32_eq 1))
  ∧ Sample.getConsumedTypes (Sample.i32_eq 1) = [I32; I32]
  ∧ getConsumedTypes Sample.getConsumedTypes Sample.getReturnTypes Sample.eq_folded
    = Ok []
  ∧ getConsumedTypes Sample.getConsumedTypes Sample.getReturnTypes Sample.eq_folded
    ≠ Ok (Sample.getConsumedTypes (Sample.i32_eq 1)).
Proof. repeat split. vm_compute. discriminate. Qed.

(** C4, at the failing input.  After [i32.const 0 f64.const 1] the stack
    is [[i32; f64]] and [f64.store] declares the consumed types
    [[i32; f64]].  The loop of the source compares the FIRST declared
    type with the top of the stack and throws, so the stack-form sequence
    is rejected; popping the rightmost declared type first accepts it, and
    so does the folded form of the same instructions, whose check
    compares the whole stack with the declared list. *)
Theorem stack_form_store_rejected :
  getReturnTypes Sample.getConsumedTypes Sample.getReturnTypes Sample.store_operands
  = Ok [I32; F64]
  ∧ Sample.getConsumedTypes (Sample.f64_store 24) = [I32; F64]
  ∧ popConsumed (Sample.getConsumedTypes (Sample.f64_store 24)) [I32; F64]
    = Throw TypeMismatch
  ∧ popConsumedRightmostFirst (Sample.getConsumedTypes (Sample.f64_store 24)) [I32; F64]
    = Ok []
  ∧ getReturnTypes Sample.getConsumedTypes Sample.getReturnTypes Sample.store_stack_form
    = Throw TypeMismatch
  ∧ getReturnTypes Sample.getConsumedTypes Sample.getReturnTypes Sample.store_folded
    = Ok [].
Proof. repeat split. Qed.

(** What the stack-form check does for one opcode token in general: it
    succeeds exactly when the stack ends with the token's consumed types
    in REVERSE of their declared order, and then replaces them by the
    produced types. *)
Lemma stack_form_token_step
    (Token_getConsumedTypes Token_getReturnTypes : Token → list ValueType)
    (t : Token) (rest : list (Token + TokenExpression)) (stack below : list ValueType) :
  stack = below ++ reverse (Token_getConsumedTypes t) →
  evalItems (itemTypes Token_getConsumedTypes Token_getReturnTypes
               (resolveTypes Token_getConsumedTypes Token_getReturnTypes))
    (inl t :: rest) stack =
  evalItems (itemTypes Token_getConsumedTypes Token_getReturnTypes
               (resolveTypes Token_getConsumedTypes Token_getReturnTypes))
    rest (below ++ Token_getReturnTypes t).
Proof.
  intros Hstack. rewrite evalItems_cons. simpl.
  apply popConsumed_Ok in Hstack. by rewrite Hstack.
Qed.

(** C6, at the failing input.  The block of the [block_one_param] test
    source is constructed with the typeuse [(param i32) (result)]; the
    constructor drops it, and [getSignature] returns the signature
    inferred from the empty body, [() -> ()].  The later revision of the
    class stores the typeuse and returns it. *)
Theorem block_one_param_signature :
  new_BlockExpression (Sample.block_kw 1) Sample.one_param EmptyTokenExpression None
  = Ok (BlockExpression (Sample.block_kw 1) None EmptyTokenExpression)
  ∧ getSignature Sample.getConsumedTypes Sample.getReturnTypes EmptyTokenExpression
    = Ok (mkFunctionSignature [] [])
  ∧ mkFunctionSignature [] [] ≠ Sample.one_param
  ∧ Revision2.getSignatureType <$>
      Revision2.new_BlockExpression (Sample.block_kw 1) None [I32] []
        EmptyTokenExpression
    = Ok Sample.one_param.
Proof. repeat split. discriminate. Qed.

(** With no typeuse the supplied signature is empty, but [getSignature]
    of a block around [i32.const 0] is inferred as [() -> (i32)]. *)
Example block_without_typeuse_inferred :
  new_BlockExpression (Sample.block_kw 1) Sample.sig_empty
    (UnfoldedTokenExpression [inl (Sample.i32_const 7); inl (Sample.nat_lit "0" 17)])
    None
  = Ok (BlockExpression (Sample.block_kw 1) None
          (UnfoldedTokenExpression
             [inl (Sample.i32_const 7); inl (Sample.nat_lit "0" 17)]))
  ∧ getSignature Sample.getConsumedTypes Sample.getReturnTypes
      (UnfoldedTokenExpression [inl (Sample.i32_const 7); inl (Sample.nat_lit "0" 17)])
    = Ok (mkFunctionSignature [] [I32]).
Proof. split; reflexivity. Qed.

(** The constructor of the source never looks at its [signature]
    argument. *)
Lemma new_BlockExpression_ignores_signature headerToken signature signature'
    blockExpression label :
  new_BlockExpression headerToken signature blockExpression label =
  new_BlockExpression headerToken signature' blockExpression label.
Proof. done. Qed.

(** In the later revision the signature of a constructed block is the
    one built from the constructor's parameter and result types. *)
Lemma Revision2_getSignatureType headerToken name paramTypes returnTypes body b :
  Revision2.new_BlockExpression headerToken name paramTypes returnTypes body = Ok b →
  Revision2.getSignatureType b = mkFunctionSignature paramTypes returnTypes.
Proof.
  unfold Revision2.new_BlockExpression, Revision2.new_BlockSignature.
  destruct (_ || _); simpl; [|done]. by intros [= <-].
Qed.

(** ** Index scans *)

Lemma findIndexFrom_shift {A} (p : A → bool) (xs : list A) (i k : nat) :
  findIndexFrom p xs (S i) = Some (S k) ↔ findIndexFrom p xs i = Some k.
Proof.
  revert i. induction xs as [|x xs IH]; intros i; simpl; [done|].
  destruct (p x); [|apply IH]. split; intros [= ->]; done.
Qed.

Lemma findIndexFrom_ge {A} (p : A → bool) (xs : list A) (i k : nat) :
  findIndexFrom p xs i = Some k → i ≤ k.
Proof.
  revert i. induction xs as [|x xs IH]; intros i; simpl; [done|].
  destruct (p x); [intros [= ->]; lia|]. intros H%IH. lia.
Qed.

(** The scan returns the smallest index whose element satisfies the
    test. *)
Lemma findIndexFrom_Some {A} (p : A → bool) (xs : list A) (k : nat) :
  findIndexFrom p xs 0 = Some k ↔
  (∃ x, xs !! k = Some x ∧ p x = true)
  ∧ ∀ j y, j < k → xs !! j = Some y → p y = false.
Proof.
  revert k. induction xs as [|x xs IH]; intros k; simpl.
  - split; [done|]. by intros [(y & Hy & _) _].
  - destruct (p x) eqn:Hpx.
    + split.
      * intros [= <-]. split; [by exists x | intros; lia].
      * intros [_ Hmin]. destruct k as [|k]; [done|].
        specialize (Hmin 0 x). simpl in Hmin. rewrite Hpx in Hmin.
        discriminate Hmin; [lia | done].
    + destruct k as [|k].
      * split.
        -- intros H%findIndexFrom_ge. lia.
        -- intros [(y & [= <-] & Hy) _]. congruence.
      * rewrite findIndexFrom_shift, IH. simpl. split.
        -- intros [Hk Hmin]. split; [done|]. intros [|j] y Hj Hy.
           ++ injection Hy as <-. done.
           ++ apply (Hmin j); [lia | done].
        -- intros [Hk Hmin]. split; [done|]. intros j y Hj Hy.
           apply (Hmin (S j)); [lia | done].
Qed.

(** The scan runs to its end exactly when no element satisfies the
    test. *)
Lemma findIndexFrom_None {A} (p : A → bool) (xs : list A) (i : nat) :
  findIndexFrom p xs i = None ↔ ∀ x, x ∈ xs → p x = false.
Proof.
  revert i. induction xs as [|x xs IH]; intros i; simpl.
  - split; [|done]. intros _ x Hx. by apply elem_of_nil in Hx.
  - destruct (p x) eqn:Hpx.
    + split; [done|]. intros H. specialize (H x). rewrite Hpx in H.
      discriminate H. left.
    + rewrite IH. split.
      * intros H y [->|Hy]%elem_of_cons; [done | by apply H].
      * intros H y Hy. apply H. by right.
Qed.

Lemma findIndexFrom_app {A} (p : A → bool) (xs ys : list A) (k : nat) :
  findIndexFrom p xs 0 = Some k → findIndexFrom p (xs ++ ys) 0 = Some k.
Proof.
  rewrite !findIndexFrom_Some. intros [(x & Hx & Hpx) Hmin]. split.
  - exists x. split; [|done]. by apply lookup_app_l_Some.
  - intros j y Hj Hy. apply (Hmin j); [done|].
    rewrite lookup_app_l in Hy; [done|].
    apply lookup_lt_Some in Hx. lia.
Qed.

(** ** The signature table *)

Lemma isEqual_true (a b : FunctionSignature) : isEqual a b = true ↔ a = b.
Proof. unfold isEqual. apply bool_decide_eq_true. Qed.

Lemma existsEqual_true (existing : list FunctionSignature) (t : FunctionSignature) :
  existsEqual existing t = true ↔ t ∈ existing.
Proof.
  induction existing as [|x xs IH]; simpl.
  - split; [done|]. intros H. by apply elem_of_nil in H.
  - destruct (isEqual x t) eqn:Heq.
    + apply isEqual_true in Heq as ->. split; [intros _; left | done].
    + rewrite IH. split; [by right|].
      intros [->|H]%elem_of_cons; [|done].
      assert (isEqual x x = true) by by apply isEqual_true. congruence.
Qed.

Lemma addGlobalType_present (m : ModuleExpression) (t : FunctionSignature) :
  t ∈ globalTypes m → addGlobalType m t = m.
Proof. intros H%existsEqual_true. unfold addGlobalType. by rewrite H. Qed.

Lemma addGlobalType_absent (m : ModuleExpression) (t : FunctionSignature) :
  t ∉ globalTypes m → globalTypes (addGlobalType m t) = globalTypes m ++ [t].
Proof.
  intros H. unfold addGlobalType.
  destruct (existsEqual (globalTypes m) t) eqn:He; [|done].
  by apply existsEqual_true in He.
Qed.

Lemma addGlobalType_globalTypes (m : ModuleExpression) (t : FunctionSignature) :
  ∃ added, globalTypes (addGlobalType m t) = globalTypes m ++ added.
Proof.
  destruct (decide (t ∈ globalTypes m)) as [Hin|Hnin].
  - exists []. by rewrite addGlobalType_present, app_nil_r.
  - exists [t]. by apply addGlobalType_absent.
Qed.

Lemma addGlobalType_NoDup (m : ModuleExpression) (t : FunctionSignature) :
  NoDup (globalTypes m) → NoDup (globalTypes (addGlobalType m t)).
Proof.
  intros Hnd. destruct (decide (t ∈ globalTypes m)) as [Hin|Hnin].
  - by rewrite addGlobalType_present.
  - rewrite addGlobalType_absent by done. apply NoDup_app. split; [done|].
    split; [|apply NoDup_singleton].
    intros x Hx ->%list_elem_of_singleton. done.
Qed.

Lemma addGlobalType_other_fields (m : ModuleExpression) (t : FunctionSignature) :
  functions (addGlobalType m t) = functions m
  ∧ globals (addGlobalType m t) = globals m
  ∧ exportExpressions (addGlobalType m t) = exportExpressions m.
Proof. unfold addGlobalType. by destruct (existsEqual _ _). Qed.

Lemma resolveGlobalTypeIndex_elem (m : ModuleExpression) (t : FunctionSignature) :
  t ∈ globalTypes m →
  ∃ i, resolveGlobalTypeIndex m t = Ok i ∧ globalTypes m !! i = Some t.
Proof.
  intros Hin. unfold resolveGlobalTypeIndex.
  destruct (findIndexFrom _ (globalTypes m) 0) as [k|] eqn:Hk.
  - exists k. split; [done|].
    apply findIndexFrom_Some in Hk as [(x & Hx & Heq) _].
    by apply isEqual_true in Heq as ->.
  - rewrite findIndexFrom_None in Hk. specialize (Hk t Hin).
    assert (isEqual t t = true) by by apply isEqual_true. congruence.
Qed.

Lemma addGlobalType_elem (m : ModuleExpression) (t t' : FunctionSignature) :
  t' ∈ globalTypes (addGlobalType m t) ↔ t' ∈ globalTypes m ∨ t' = t.
Proof.
  destruct (decide (t ∈ globalTypes m)) as [Hin|Hnin].
  - rewrite addGlobalType_present by done. split; [by left|].
    by intros [?| ->].
  - rewrite addGlobalType_absent by done.
    by rewrite elem_of_app, list_elem_of_singleton.
Qed.

(** A signature that is not in the table is appended at its end, and
    from then on resolves to that position. *)
Lemma resolveGlobalTypeIndex_appended (m : ModuleExpression) (t : FunctionSignature) :
  t ∉ globalTypes m →
  resolveGlobalTypeIndex (addGlobalType m t) t = Ok (length (globalTypes m)).
Proof.
  intros Hnin. unfold resolveGlobalTypeIndex. rewrite addGlobalType_absent by done.
  assert (findIndexFrom (λ existing_type, isEqual existing_type t)
            (globalTypes m ++ [t]) 0 = Some (length (globalTypes m))) as ->; [|done].
  apply findIndexFrom_Some. split.
  - exists t. split; [|by apply isEqual_true]. by rewrite list_lookup_middle.
  - intros j y Hj Hy. rewrite lookup_app_l in Hy by done.
    apply list_elem_of_lookup_2 in Hy.
    destruct (isEqual y t) eqn:Heq; [|done].
    apply isEqual_true in Heq as ->. done.
Qed.

(** ** The module mutators *)

Section ModuleProperties.
Variable Token_extractName : Token → string.
Variable Number_parseInt : string → number.

#[local] Abbreviation addFunctionExpression' :=
  (addFunctionExpression Token_extractName Number_parseInt).
#[local] Abbreviation applyOp' := (applyOp Token_extractName Number_parseInt).
#[local] Abbreviation applyOps' := (applyOps Token_extractName Number_parseInt).
#[local] Abbreviation addChildren' := (addChildren Token_extractName Number_parseInt).

(** [addFunctionExpression] always returns, and this is the module it
    returns. *)
Lemma addFunctionExpression_Ok (m : ModuleExpression) (f : FunctionExpression) :
  addFunctionExpression' m f =
  Ok (mkModuleExpression
        (globalTypes (addGlobalType m (FunctionExpression_getSignature f)))
        (functions m ++ [f])
        (globals m ++ [f])
        (exportExpressions m ++ inlineExports f (length (functions m)))).
Proof.
  unfold addFunctionExpression, inlineExports.
  set (m1 := mkModuleExpression (globalTypes m) (functions m ++ [f]) (globals m)
               (exportExpressions m)).
  destruct (addGlobalType_other_fields m1 (FunctionExpression_getSignature f))
    as (Hfun & Hglob & Hexp).
  assert (globalTypes (addGlobalType m1 (FunctionExpression_getSignature f)) =
          globalTypes (addGlobalType m (FunctionExpression_getSignature f))) as Htypes.
  { unfold addGlobalType. simpl. by destruct (existsEqual _ _). }
  destruct (inlineExportName f) as [name|]; simpl.
  - unfold addExportExpression. simpl. rewrite Htypes, Hfun, Hglob, Hexp. simpl.
    rewrite length_app. simpl.
    by replace (Z.of_nat (length (functions m) + 1) - 1)%Z
      with (Z.of_nat (length (functions m))) by lia.
  - rewrite Htypes, Hfun, Hglob, Hexp. simpl. by rewrite app_nil_r.
Qed.

Lemma applyOp_Ok (m : ModuleExpression) (op : ModuleOp) :
  ∃ m', applyOp' m op = Ok m'
        ∧ (∃ added, globalTypes m' = globalTypes m ++ added)
        ∧ (NoDup (globalTypes m) → NoDup (globalTypes m')).
Proof.
  destruct op as [f|e|t]; simpl.
  - rewrite addFunctionExpression_Ok. eexists. split; [done|]. simpl.
    split; [apply addGlobalType_globalTypes | apply addGlobalType_NoDup].
  - eexists. split; [done|]. simpl. split; [|done]. exists []. by rewrite app_nil_r.
  - eexists. split; [done|].
    split; [apply addGlobalType_globalTypes | apply addGlobalType_NoDup].
Qed.

Lemma applyOps_Ok (m : ModuleExpression) (ops : list ModuleOp) :
  ∃ m', applyOps' m ops = Ok m'
        ∧ (∃ added, globalTypes m' = globalTypes m ++ added)
        ∧ (NoDup (globalTypes m) → NoDup (globalTypes m')).
Proof.
  revert m. induction ops as [|op ops IH]; intros m; simpl.
  - exists m. split; [done|]. split; [|done]. exists []. by rewrite app_nil_r.
  - destruct (applyOp_Ok m op) as (m1 & -> & [added1 Hpre1] & Hnd1). simpl.
    destruct (IH m1) as (m2 & Hm2 & [added2 Hpre2] & Hnd2).
    exists m2. split; [done|]. split; [|tauto].
    exists (added1 ++ added2). by rewrite Hpre2, Hpre1, app_assoc.
Qed.

(** The constructor is the sequence of mutators its children stand for. *)
Lemma addChildren_applyOps (m : ModuleExpression)
    (childNodes : list (FunctionExpression + ExportExpression)) :
  addChildren' m childNodes = applyOps' m (childOp <$> childNodes).
Proof.
  revert m. induction childNodes as [|[f|e] rest IH]; intros m; simpl; [done| |].
  - destruct (addFunctionExpression' m f); simpl; [apply IH | done].
  - apply IH.
Qed.

Lemma resolveGlobalTypeIndex_app (m m' : ModuleExpression) (t : FunctionSignature)
    (i : nat) (added : list FunctionSignature) :
  globalTypes m' = globalTypes m ++ added →
  resolveGlobalTypeIndex m t = Ok i → resolveGlobalTypeIndex m' t = Ok i.
Proof.
  unfold resolveGlobalTypeIndex. intros ->.
  destruct (findIndexFrom _ (globalTypes m) 0) as [k|] eqn:Hk; [|done].
  intros [= <-]. by rewrite (findIndexFrom_app _ _ added k Hk).
Qed.

(** What a sequence of mutators makes of the type table: exactly the
    signatures handed to [addGlobalType] are added to what was there. *)
Lemma applyOps_globalTypes (m0 : ModuleExpression) (ops : list ModuleOp) :
  ∃ m, applyOps' m0 ops = Ok m
       ∧ ∀ t, t ∈ globalTypes m ↔ t ∈ globalTypes m0 ∨ Some t ∈ opSignature <$> ops.
Proof.
  revert m0. induction ops as [|op ops IH]; intros m0.
  - exists m0. split; [done|]. intros t. split; [by left|].
    intros [?|?%elem_of_nil]; done.
  - simpl applyOps.
    assert (∃ m1, applyOp' m0 op = Ok m1
              ∧ ∀ t, t ∈ globalTypes m1 ↔ t ∈ globalTypes m0 ∨ Some t = opSignature op)
      as (m1 & Hm1 & Htypes1).
    { destruct op as [f|e|t']; simpl.
      - rewrite addFunctionExpression_Ok. eexists. split; [done|]. simpl.
        intros t. rewrite addGlobalType_elem. split.
        + intros [?| ->]; [by left | by right].
        + intros [?|[= ->]]; [by left | by right].
      - eexists. split; [done|]. simpl. intros t. split; [by left|].
        by intros [?|?].
      - eexists. split; [done|]. intros t. rewrite addGlobalType_elem. split.
        + intros [?| ->]; [by left | by right].
        + intros [?|[= ->]]; [by left | by right]. }
    rewrite Hm1. simpl. destruct (IH m1) as (m & Hm & Htypes).
    exists m. split; [done|]. intros t.
    change (opSignature <$> op :: ops) with (opSignature op :: (opSignature <$> ops)).
    rewrite Htypes, Htypes1, elem_of_cons. tauto.
Qed.

(** C2.  After any sequence of operations that add functions, exports or
    types to a fresh module (and after the constructor, for any list of
    children) the operations have all returned; [globalTypes] holds
    exactly the signatures that were added, each of them once, and each
    resolves to the index at which it stands.  Adding a further signature
    that is not in the table appends it at the end, where it resolves
    from then on; adding one that is present, directly or through a
    function that carries it, leaves [globalTypes] unchanged; and the
    index a signature resolves to stays the same whatever is added
    afterwards. *)
Theorem globalTypes_interned (ops : list ModuleOp) :
  ∃ m,
    applyOps Token_extractName Number_parseInt emptyModule ops = Ok m
    ∧ NoDup (globalTypes m)
    ∧ (∀ t, t ∈ globalTypes m ↔ Some t ∈ opSignature <$> ops)
    ∧ (∀ t, t ∈ globalTypes m →
         ∃ i, resolveGlobalTypeIndex m t = Ok i ∧ globalTypes m !! i = Some t)
    ∧ (∀ t, t ∈ globalTypes m → addGlobalType m t = m)
    ∧ (∀ t, t ∉ globalTypes m →
         globalTypes (addGlobalType m t) = globalTypes m ++ [t]
         ∧ resolveGlobalTypeIndex (addGlobalType m t) t = Ok (length (globalTypes m)))
    ∧ (∀ f, FunctionExpression_getSignature f ∈ globalTypes m →
         ∃ m', addFunctionExpression Token_extractName Number_parseInt m f = Ok m'
               ∧ globalTypes m' = globalTypes m)
    ∧ (∀ f, FunctionExpression_getSignature f ∉ globalTypes m →
         ∃ m', addFunctionExpression Token_extractName Number_parseInt m f = Ok m'
               ∧ globalTypes m' = globalTypes m ++ [FunctionExpression_getSignature f]
               ∧ resolveGlobalTypeIndex m' (FunctionExpression_getSignature f)
                 = Ok (length (globalTypes m)))
    ∧ (∀ t i more,
         resolveGlobalTypeIndex m t = Ok i →
         ∃ m', applyOps Token_extractName Number_parseInt m more = Ok m'
               ∧ NoDup (globalTypes m')
               ∧ resolveGlobalTypeIndex m' t = Ok i)
    ∧ (∀ childNodes,
         ops = childOp <$> childNodes →
         new_ModuleExpression Token_extractName Number_parseInt childNodes = Ok m).
Proof.
  destruct (applyOps_Ok emptyModule ops) as (m & Hm & _ & Hnd).
  specialize (Hnd (NoDup_nil_2)).
  destruct (applyOps_globalTypes emptyModule ops) as (m' & Hm' & Htypes).
  rewrite Hm in Hm'. injection Hm' as <-.
  exists m. split; [done|]. split; [done|]. split.
  { intros t. rewrite Htypes. simpl. split; [|by right].
    intros [?%elem_of_nil|?]; done. }
  split; [intros t; apply resolveGlobalTypeIndex_elem|].
  split; [apply addGlobalType_present|]. split.
  { intros t Hnin. split; [by apply addGlobalType_absent|].
    by apply resolveGlobalTypeIndex_appended. }
  split; [|split; [|split]].
  - intros f Hf. rewrite addFunctionExpression_Ok. eexists. split; [done|].
    simpl. by rewrite addGlobalType_present.
  - intros f Hf. rewrite addFunctionExpression_Ok. eexists. split; [done|].
    simpl. split; [by apply addGlobalType_absent|].
    pose proof (resolveGlobalTypeIndex_appended m _ Hf) as Hres.
    unfold resolveGlobalTypeIndex in *. simpl. done.
  - intros t i more Hi.
    destruct (applyOps_Ok m more) as (m' & Hm' & [added Hpre] & Hnd').
    exists m'. split; [done|]. split; [by apply Hnd'|].
    by eapply resolveGlobalTypeIndex_app.
  - intros childNodes ->. unfold new_ModuleExpression.
    by rewrite addChildren_applyOps.
Qed.

(** Interning at work: [f64 f64 -> f64], then [() -> ()], then the first
    again.  The table holds the two signatures in order of first
    insertion, the repeated one keeps index 0, and a third signature
    added later lands at index 2 without moving the others. *)
Example globalTypes_first_insertion_wins :
  applyOps Sample.extractName Sample.parseInt emptyModule
    [AddFunctionExpression Sample.fn_add; AddGlobalType Sample.sig_empty;
     AddGlobalType Sample.sig_f64_f64]
  = Ok (mkModuleExpression [Sample.sig_f64_f64; Sample.sig_empty]
          [Sample.fn_add] [Sample.fn_add]
          [mkExportExpression "fn" ExportType.Func (Some (Num 0)) None])
  ∧ (m ← applyOps Sample.extractName Sample.parseInt emptyModule
           [AddFunctionExpression Sample.fn_add; AddGlobalType Sample.sig_empty;
            AddGlobalType Sample.sig_f64_f64; AddGlobalType Sample.one_param];
     Ok (globalTypes m,
         resolveGlobalTypeIndex m Sample.sig_f64_f64,
         resolveGlobalTypeIndex m Sample.sig_empty,
         resolveGlobalTypeIndex m Sample.one_param))
    = Ok ([Sample.sig_f64_f64; Sample.sig_empty; Sample.one_param], Ok 0, Ok 1, Ok 2).
Proof. split; reflexivity. Qed.

(** C8.  Adding a function always returns.  When the function carries
    an inline-export name, exactly one export expression is appended: its
    name is the inline-export name, its kind is [Func], its reference
    index is the position at which the function now stands in
    [functions], and its reference name is null.  When the function
    carries no inline-export name, [exportExpressions] is unchanged. *)
Theorem addFunctionExpression_export (m : ModuleExpression) (f : FunctionExpression) :
  ∃ m',
    addFunctionExpression Token_extractName Number_parseInt m f = Ok m'
    ∧ functions m' = functions m ++ [f]
    ∧ functions m' !! length (functions m) = Some f
    ∧ (∀ name,
         inlineExportName f = Some name →
         hasInlineExport f = true
         ∧ exportExpressions m' =
           exportExpressions m ++
           [mkExportExpression name ExportType.Func
              (Some (Num (Z.of_nat (length (functions m))))) None])
    ∧ (inlineExportName f = None →
         hasInlineExport f = false
         ∧ exportExpressions m' = exportExpressions m).
Proof.
  rewrite addFunctionExpression_Ok. eexists. split; [done|]. simpl.
  split; [done|]. split; [apply list_lookup_middle; done|].
  unfold inlineExports, hasInlineExport. split.
  - intros name ->. done.
  - intros ->. by rewrite app_nil_r.
Qed.
End ModuleProperties.

(** The constructor of a function returns exactly when the name slots
    match the types in number, and then keeps the slots as given. *)
Lemma new_FunctionExpression_Ok functionName inlineExportName paramTypes paramNames
    returnTypes localTypes localNames body f :
  new_FunctionExpression functionName inlineExportName paramTypes paramNames
    returnTypes localTypes localNames body = Ok f ↔
  length paramTypes = length paramNames
  ∧ length localTypes = length localNames
  ∧ f = mkFunctionExpression (mkFunctionSignature paramTypes returnTypes)
          (mkFunctionBody body) functionName inlineExportName
          paramNames localTypes localNames.
Proof.
  unfold new_FunctionExpression. repeat case_bool_decide; simpl; split;
    try done; try (by intros (? & ? & _)).
  - by intros [= <-].
  - by intros (_ & _ & ->).
Qed.

(** The fourth scenario: one function with the inline export ["fn"]
    gives one type, one function and the export [("fn", Func, 0)]. *)
Example module_with_inline_export :
  new_ModuleExpression Sample.extractName Sample.parseInt [inl Sample.fn_add] =
  Ok (mkModuleExpression [Sample.sig_f64_f64] [Sample.fn_add] [Sample.fn_add]
        [mkExportExpression "fn" ExportType.Func (Some (Num 0)) None]).
Proof. reflexivity. Qed.

(** Two functions with the same signature produce one entry in the type
    table, and no export when neither has the shorthand. *)
Example module_same_signature_twice :
  new_ModuleExpression Sample.extractName Sample.parseInt
    [inl Sample.fn_nop; inl Sample.fn_nop] =
  Ok (mkModuleExpression [Sample.sig_empty] [Sample.fn_nop; Sample.fn_nop]
        [Sample.fn_nop; Sample.fn_nop] []).
Proof. reflexivity. Qed.

(** ** Index resolution *)

(** C3.  If some entry of [globalTypes] equals the queried signature,
    [resolveGlobalTypeIndex] returns the index of the first such entry;
    if none does, the call raises the assertion error, and in no case
    does it return an index that does not hold the signature. *)
Theorem resolveGlobalTypeIndex_spec (m : ModuleExpression) (t : FunctionSignature) :
  (t ∈ globalTypes m →
     ∃ i, resolveGlobalTypeIndex m t = Ok i
          ∧ globalTypes m !! i = Some t
          ∧ ∀ j, j < i → globalTypes m !! j ≠ Some t)
  ∧ (t ∉ globalTypes m → resolveGlobalTypeIndex m t = Throw AssertionFailed)
  ∧ (∀ i, resolveGlobalTypeIndex m t = Ok i →
       globalTypes m !! i = Some t ∧ ∀ j, j < i → globalTypes m !! j ≠ Some t).
Proof.
  assert (Hok : ∀ i, resolveGlobalTypeIndex m t = Ok i →
       globalTypes m !! i = Some t ∧ ∀ j, j < i → globalTypes m !! j ≠ Some t).
  { unfold resolveGlobalTypeIndex. intros i.
    destruct (findIndexFrom _ (globalTypes m) 0) as [k|] eqn:Hk; [|done].
    intros [= <-]. apply findIndexFrom_Some in Hk as [(x & Hx & Heq) Hmin].
    apply isEqual_true in Heq as ->. split; [done|].
    intros j Hj Hlook. specialize (Hmin j t Hj Hlook).
    assert (isEqual t t = true) by by apply isEqual_true. congruence. }
  assert (Hthrow : t ∉ globalTypes m → resolveGlobalTypeIndex m t = Throw AssertionFailed).
  { intros Hnin. unfold resolveGlobalTypeIndex.
    destruct (findIndexFrom _ (globalTypes m) 0) as [k|] eqn:Hk; [|done].
    apply findIndexFrom_Some in Hk as [(x & Hx & Heq) _].
    apply isEqual_true in Heq as ->. by apply list_elem_of_lookup_2 in Hx. }
  split; [|by split].
  intros Hin. unfold resolveGlobalTypeIndex in *.
  destruct (findIndexFrom _ (globalTypes m) 0) as [k|] eqn:Hk.
  - exists k. split; [done|]. by apply Hok.
  - exfalso. rewrite findIndexFrom_None in Hk. specialize (Hk t Hin).
    assert (isEqual t t = true) by by apply isEqual_true. congruence.
Qed.

(** A signature present twice in a hand-built table still resolves to
    its first position; an absent one raises the assertion error. *)
Example resolveGlobalTypeIndex_first :
  resolveGlobalTypeIndex
    (mkModuleExpression [Sample.sig_empty; Sample.sig_f64_f64; Sample.sig_f64_f64] [] [] [])
    Sample.sig_f64_f64 = Ok 1
  ∧ resolveGlobalTypeIndex
      (mkModuleExpression [Sample.sig_empty] [] [] []) Sample.sig_f64_f64
    = Throw AssertionFailed.
Proof. split; reflexivity. Qed.

(** C9.  [resolveVariableIndex(x)] returns [i] exactly when [i] is the
    smallest index of the parameter-name slots followed by the local-name
    slots whose slot holds [x]; a name held by a parameter slot resolves
    to an index below the number of parameters whose parameter slot holds
    it; and the call throws exactly when no parameter or local slot holds
    [x]. *)
Theorem resolveVariableIndex_spec (f : FunctionExpression) (x : string) :
  (∀ i, resolveVariableIndex f x = Ok i ↔
        (paramNames f ++ localNames f) !! i = Some (Some x)
        ∧ ∀ j, j < i → (paramNames f ++ localNames f) !! j ≠ Some (Some x))
  ∧ (Some x ∈ paramNames f →
       ∃ i, resolveVariableIndex f x = Ok i
            ∧ i < length (paramNames f)
            ∧ paramNames f !! i = Some (Some x))
  ∧ (resolveVariableIndex f x = Throw ParameterNameNotFound ↔
       Some x ∉ paramNames f ++ localNames f)
  ∧ ((∃ err, resolveVariableIndex f x = Throw err) ↔
       (Some x ∉ paramNames f) ∧ (Some x ∉ localNames f)).
Proof.
  assert (Hiff : ∀ i, resolveVariableIndex f x = Ok i ↔
        (paramNames f ++ localNames f) !! i = Some (Some x)
        ∧ ∀ j, j < i → (paramNames f ++ localNames f) !! j ≠ Some (Some x)).
  { intros i. unfold resolveVariableIndex.
    destruct (findIndexFrom _ (paramNames f ++ localNames f) 0) as [k|] eqn:Hk.
    - apply findIndexFrom_Some in Hk as [(y & Hy & Heq) Hmin].
      apply bool_decide_eq_true in Heq as ->. split.
      + intros [= <-]. split; [done|]. intros j Hj Hlook.
        specialize (Hmin j _ Hj Hlook). by apply bool_decide_eq_false in Hmin.
      + intros [Hi Hmini]. f_equal.
        destruct (Nat.lt_trichotomy k i) as [Hlt|[->|Hgt]]; [|done|].
        * by destruct (Hmini k Hlt).
        * specialize (Hmin i _ Hgt Hi). by apply bool_decide_eq_false in Hmin.
    - split; [done|]. intros [Hi _]. rewrite findIndexFrom_None in Hk.
      apply list_elem_of_lookup_2 in Hi. specialize (Hk _ Hi).
      by apply bool_decide_eq_false in Hk. }
  assert (Hthrow : resolveVariableIndex f x = Throw ParameterNameNotFound ↔
       Some x ∉ paramNames f ++ localNames f).
  { unfold resolveVariableIndex.
    destruct (findIndexFrom _ (paramNames f ++ localNames f) 0) as [k|] eqn:Hk.
    - split; [done|]. intros Hnin.
      apply findIndexFrom_Some in Hk as [(y & Hy & Heq) _].
      apply bool_decide_eq_true in Heq as ->.
      by apply list_elem_of_lookup_2 in Hy.
    - split; [|done]. intros _ Hin. rewrite findIndexFrom_None in Hk.
      specialize (Hk _ Hin). by apply bool_decide_eq_false in Hk. }
  split; [exact Hiff|]. split; [|split; [exact Hthrow|]].
  - intros Hin. apply list_elem_of_lookup_1 in Hin as [k Hk].
    destruct (resolveVariableIndex f x) as [i|err] eqn:Hres.
    + exists i. split; [done|]. destruct (proj1 (Hiff i) eq_refl) as [Hi Hmin].
      assert (i ≤ k) as Hle.
      { destruct (decide (i ≤ k)); [done|]. destruct (Hmin k); [lia|].
        by apply lookup_app_l_Some. }
      assert (i < length (paramNames f)) as Hlt.
      { apply lookup_lt_Some in Hk. lia. }
      split; [done|]. by rewrite lookup_app_l in Hi.
    + exfalso. unfold resolveVariableIndex in Hres.
      destruct (findIndexFrom _ (paramNames f ++ localNames f) 0) eqn:Hf; [done|].
      rewrite findIndexFrom_None in Hf.
      specialize (Hf (Some x)). rewrite bool_decide_eq_false in Hf. apply Hf; [|done].
      apply elem_of_app. left. by eapply list_elem_of_lookup_2.
  - rewrite <- not_elem_of_app, <- Hthrow. split; [|eauto].
    intros [err Herr]. unfold resolveVariableIndex in *.
    by destruct (findIndexFrom _ (paramNames f ++ localNames f) 0).
Qed.

(** The third scenario's names: [$a] and [$b] are parameters 0 and 1,
    the local [$tmp] is index 2, and an unknown name throws. *)
Example resolveVariableIndex_fn_add :
  resolveVariableIndex Sample.fn_add "$a" = Ok 0
  ∧ resolveVariableIndex Sample.fn_add "$b" = Ok 1
  ∧ resolveVariableIndex Sample.fn_add "$tmp" = Ok 2
  ∧ resolveVariableIndex Sample.fn_add "$missing" = Throw ParameterNameNotFound.
Proof. repeat split. Qed.

(** ** Export expressions *)

Section ExportProperties.
Variable Token_extractName : Token → string.
Variable Number_parseInt : string → number.

#[local] Abbreviation new_ExportExpression' :=
  (new_ExportExpression Token_extractName Number_parseInt).

Lemma new_ExportExpression_Ok exportName exportType exportReference e :
  new_ExportExpression' exportName exportType exportReference = Ok e ↔
  ∃ name ty ref,
    match exportName with
    | inl s => Ok s
    | inr tok => getExportName Token_extractName tok
    end = Ok name
    ∧ match exportType with
      | inr tok => getExportType tok
      | inl t => Ok t
      end = Ok ty
    ∧ match exportReference with
      | inl n => Ok (Some n, None)
      | inr tok => getExportReference Number_parseInt tok
      end = Ok ref
    ∧ e = mkExportExpression name ty ref.1 ref.2.
Proof.
  unfold new_ExportExpression. rewrite bind_Ok. split.
  - intros (name & Hname & Hrest). apply bind_Ok in Hrest as (ty & Hty & Hrest).
    apply bind_Ok in Hrest as (ref & Href & [= <-]). by exists name, ty, ref.
  - intros (name & ty & ref & Hname & Hty & Href & ->).
    exists name. split; [done|]. apply bind_Ok. exists ty. split; [done|].
    apply bind_Ok. by exists ref.
Qed.

Lemma getExportReference_Ok tok ref :
  getExportReference Number_parseInt tok = Ok ref ↔
  (type tok = TokenType.Nat ∧ ref = (Some (Number_parseInt (lexeme tok)), None))
  ∨ (type tok = TokenType.Var ∧ ref = (None, Some (lexeme tok))).
Proof.
  unfold getExportReference. destruct (type tok); split;
    try done; try (intros [[? _]|[? _]]; done).
  - intros [= <-]. by left.
  - by intros [[_ ->]|[? _]].
  - intros [= <-]. by right.
  - by intros [[? _]|[_ ->]].
Qed.

(** C10.  Every successfully constructed [ExportExpression] has exactly
    one of [exportReferenceIndex] and [exportReferenceName] non-null: a
    numeric reference argument sets the index to that number, a [Nat]
    token sets the index to [Number.parseInt] of its lexeme, in both
    cases leaving the name null; a [Var] token sets the name to its
    lexeme and leaves the index null; any other reference token makes the
    construction throw.  Construction succeeds exactly when a name token
    is a [Text], a kind token is a [Func] and a reference token is a [Nat]
    or a [Var]. *)
Theorem ExportExpression_reference
    (exportName : string + Token) (exportType : ExportType.t + Token)
    (exportReference : number + Token) :
  (∀ e,
      new_ExportExpression Token_extractName Number_parseInt
        exportName exportType exportReference = Ok e →
      (exportReferenceIndex e ≠ None ∧ exportReferenceName e = None)
      ∨ (exportReferenceIndex e = None ∧ exportReferenceName e ≠ None))
  ∧ (∀ e,
      new_ExportExpression Token_extractName Number_parseInt
        exportName exportType exportReference = Ok e →
      match exportReference with
      | inl n => exportReferenceIndex e = Some n ∧ exportReferenceName e = None
      | inr tok =>
          (type tok = TokenType.Nat
           ∧ exportReferenceIndex e = Some (Number_parseInt (lexeme tok))
           ∧ exportReferenceName e = None)
          ∨ (type tok = TokenType.Var
             ∧ exportReferenceIndex e = None
             ∧ exportReferenceName e = Some (lexeme tok))
      end)
  ∧ (∀ tok,
      exportReference = inr tok →
      type tok ≠ TokenType.Nat → type tok ≠ TokenType.Var →
      ∃ err,
        new_ExportExpression Token_extractName Number_parseInt
          exportName exportType exportReference = Throw err)
  ∧ succeeds (new_ExportExpression Token_extractName Number_parseInt
                exportName exportType exportReference) =
    match exportName with
    | inl _ => true
    | inr tok => bool_decide (type tok = TokenType.Text)
    end
    && match exportType with
       | inl _ => true
       | inr tok => bool_decide (type tok = TokenType.Func)
       end
    && match exportReference with
       | inl _ => true
       | inr tok => bool_decide (type tok = TokenType.Nat)
                    || bool_decide (type tok = TokenType.Var)
       end.
Proof.
  assert (Hshape : ∀ e,
      new_ExportExpression Token_extractName Number_parseInt
        exportName exportType exportReference = Ok e →
      match exportReference with
      | inl n => exportReferenceIndex e = Some n ∧ exportReferenceName e = None
      | inr tok =>
          (type tok = TokenType.Nat
           ∧ exportReferenceIndex e = Some (Number_parseInt (lexeme tok))
           ∧ exportReferenceName e = None)
          ∨ (type tok = TokenType.Var
             ∧ exportReferenceIndex e = None
             ∧ exportReferenceName e = Some (lexeme tok))
      end).
  { intros e (name & ty & ref & _ & _ & Href & ->)%new_ExportExpression_Ok.
    destruct exportReference as [n|tok]; simpl.
    - by injection Href as <-.
    - apply getExportReference_Ok in Href as [[Hnat ->]|[Hvar ->]]; simpl; eauto. }
  split; [|split; [exact Hshape|split]].
  - intros e He. specialize (Hshape e He).
    destruct exportReference as [n|tok].
    + destruct Hshape as [-> ->]. by left.
    + destruct Hshape as [(_ & -> & ->)|(_ & -> & ->)]; [by left | by right].
  - intros tok -> Hnat Hvar.
    destruct (new_ExportExpression _ _ _ _ _) as [e|err] eqn:He; [|by exists err].
    by destruct (Hshape e eq_refl) as [(? & _)|(? & _)].
  - unfold new_ExportExpression, getExportName, getExportType, getExportReference.
    destruct exportName as [s|nameTok], exportType as [t|typeTok],
      exportReference as [n|refTok]; simpl;
      repeat match goal with
             | tok : Token |- _ => destruct tok as [[] ? ? ? ? ? ?]; simpl
             end; reflexivity.
Qed.
End ExportProperties.

(** The fifth scenario's export form: [(export "x" (func $b))] keeps the
    symbolic name, and [(export "x" (func 1))] the parsed index. *)
Example export_by_name_and_by_index :
  new_ExportExpression Sample.extractName Sample.parseInt
    (inr (mkToken TokenType.Text "x" 1 9 9 None None))
    (inr (mkToken TokenType.Func "func" 1 14 14 None None))
    (inr (mkToken TokenType.Var "$b" 1 19 19 None None))
  = Ok (mkExportExpression "x" ExportType.Func None (Some "$b"))
  ∧ new_ExportExpression Sample.extractName Sample.parseInt
      (inr (mkToken TokenType.Text "x" 1 9 9 None None))
      (inr (mkToken TokenType.Func "func" 1 14 14 None None))
      (inr (Sample.nat_lit "1" 19))
    = Ok (mkExportExpression "x" ExportType.Func (Some (Num 1)) None)
  ∧ new_ExportExpression Sample.extractName Sample.parseInt
      (inr (mkToken TokenType.Text "x" 1 9 9 None None))
      (inr (mkToken TokenType.Func "func" 1 14 14 None None))
      (inr (mkToken TokenType.Text "b" 1 19 19 None None))
    = Throw UnexpectedExportID.
Proof. repeat split. Qed.

(** * Further properties of the code *)

(** ** The pop loop and the item loop *)

(** X1.  The pop loop returns [rest] exactly when the stack is [rest]
    followed by the consumed list reversed; its only error is the
    'Type mismatch' error; a successful run shortens the stack by the
    number of consumed types; and on a consumed list that reads the same
    in both directions (all operands of one type, say) it agrees with
    popping the rightmost declared type first. *)
Theorem popConsumed_accepts (consumed stack : list ValueType) :
  (∀ rest, popConsumed consumed stack = Ok rest ↔ stack = rest ++ reverse consumed)
  ∧ (∀ err, popConsumed consumed stack = Throw err → err = TypeMismatch)
  ∧ (∀ rest, popConsumed consumed stack = Ok rest →
       length stack = length rest + length consumed)
  ∧ (reverse consumed = consumed →
       popConsumed consumed stack = popConsumedRightmostFirst consumed stack).
Proof.
  split; [intros rest; apply popConsumed_Ok|].
  split; [intros err; apply popConsumed_Throw|]. split.
  - intros rest ->%popConsumed_Ok. by rewrite length_app, length_reverse.
  - intros Hpal. unfold popConsumedRightmostFirst. by rewrite Hpal.
Qed.

Lemma popConsumed_frame (consumed stack stack' below : list ValueType) :
  popConsumed consumed stack = Ok stack' →
  popConsumed consumed (below ++ stack) = Ok (below ++ stack').
Proof.
  rewrite !popConsumed_Ok. intros ->. by rewrite app_assoc.
Qed.

Lemma evalItems_app {A} (typesOf : A → Result (list ValueType * list ValueType))
    (xs ys : list A) (stack : list ValueType) :
  evalItems typesOf (xs ++ ys) stack =
  evalItems typesOf xs stack ≫= evalItems typesOf ys.
Proof.
  revert stack. induction xs as [|x xs IH]; intros stack; [done|].
  rewrite <- app_comm_cons, !evalItems_cons.
  destruct (typesOf x) as [ct|err]; simpl; [|done].
  destruct (popConsumed ct.1 stack) as [stack1|err]; simpl; [|done].
  apply IH.
Qed.

Lemma evalItems_frame_gen {A} (typesOf : A → Result (list ValueType * list ValueType))
    (items : list A) (stack stack' below : list ValueType) :
  evalItems typesOf items stack = Ok stack' →
  evalItems typesOf items (below ++ stack) = Ok (below ++ stack').
Proof.
  revert stack. induction items as [|x items IH]; intros stack.
  - by intros [= ->].
  - rewrite !evalItems_cons. destruct (typesOf x) as [ct|err]; simpl; [|done].
    destruct (popConsumed ct.1 stack) as [stack1|err] eqn:Hpop; simpl; [|done].
    rewrite (popConsumed_frame _ _ _ below Hpop). simpl.
    intros H%IH. by rewrite <- app_assoc.
Qed.

Lemma evalItems_Ok_items {A} (typesOf : A → Result (list ValueType * list ValueType))
    (items : list A) (stack stack' : list ValueType) :
  evalItems typesOf items stack = Ok stack' →
  Forall (λ x, ∃ ct, typesOf x = Ok ct) items.
Proof.
  revert stack. induction items as [|x items IH]; intros stack; [constructor|].
  rewrite evalItems_cons. destruct (typesOf x) as [ct|err] eqn:Hx; simpl; [|done].
  destruct (popConsumed ct.1 stack) as [stack1|err]; simpl; [|done].
  intros H%IH. constructor; eauto.
Qed.

Lemma evalItems_Throw {A} (typesOf : A → Result (list ValueType * list ValueType))
    (items : list A) (stack : list ValueType) (err : Error) :
  evalItems typesOf items stack = Throw err →
  err = TypeMismatch ∨ ∃ x, x ∈ items ∧ typesOf x = Throw err.
Proof.
  revert stack. induction items as [|x items IH]; intros stack; [done|].
  rewrite evalItems_cons. destruct (typesOf x) as [ct|err'] eqn:Hx; simpl.
  - destruct (popConsumed ct.1 stack) as [stack1|err'] eqn:Hpop; simpl.
    + intros [->|(y & Hy & Herr)]%IH; [by left|]. right. exists y.
      split; [by right | done].
    + intros [= <-]. left. by eapply popConsumed_Throw.
  - intros [= <-]. right. exists x. split; [left | done].
Qed.

Lemma flatMapM_Throw {A B} (f : A → Result (list B)) (l : list A) (err : Error) :
  flatMapM f l = Throw err → ∃ x, x ∈ l ∧ f x = Throw err.
Proof.
  induction l as [|x l IH]; simpl; [done|].
  destruct (f x) as [ys|err'] eqn:Hx; simpl.
  - destruct (flatMapM f l) as [zs|err'']; simpl; [done|].
    intros [= <-]. destruct IH as (y & Hy & Herr); [done|].
    exists y. split; [by right | done].
  - intros [= <-]. exists x. split; [left | done].
Qed.

Section FurtherResolveProperties.
Variable Token_getConsumedTypes : Token → list ValueType.
Variable Token_getReturnTypes : Token → list ValueType.

#[local] Abbreviation resolveTypes2 :=
  (resolveTypes Token_getConsumedTypes Token_getReturnTypes).
#[local] Abbreviation itemTypes2 :=
  (itemTypes Token_getConsumedTypes Token_getReturnTypes resolveTypes2).
#[local] Abbreviation getReturnTypes2 :=
  (getReturnTypes Token_getConsumedTypes Token_getReturnTypes).
#[local] Abbreviation getConsumedTypes2 :=
  (getConsumedTypes Token_getConsumedTypes Token_getReturnTypes).
#[local] Abbreviation getSignature2 :=
  (getSignature Token_getConsumedTypes Token_getReturnTypes).
#[local] Abbreviation unfold2 := (unfold Token_getConsumedTypes Token_getReturnTypes).
#[local] Abbreviation blocksResolve2 :=
  (blocksResolve Token_getConsumedTypes Token_getReturnTypes).

(** X2.  The item loop never looks below what it pops: if a sequence of
    operands or stack-form items takes [stack] to [stack'], it takes
    [below ++ stack] to [below ++ stack']. *)
Theorem evalItems_frame (items : list (Token + TokenExpression))
    (stack stack' below : list ValueType) :
  evalItems (itemTypes Token_getConsumedTypes Token_getReturnTypes
               (resolveTypes Token_getConsumedTypes Token_getReturnTypes))
    items stack = Ok stack' →
  evalItems (itemTypes Token_getConsumedTypes Token_getReturnTypes
               (resolveTypes Token_getConsumedTypes Token_getReturnTypes))
    items (below ++ stack) = Ok (below ++ stack').
Proof. apply evalItems_frame_gen. Qed.

(** X3.  Every expression consumes nothing: [getConsumedTypes] returns
    the empty list exactly when the expression's types resolve, and
    raises the error of the resolution otherwise, for operation trees,
    stack-form sequences, empty expressions and blocks alike. *)
Theorem getConsumedTypes_empty (e : TokenExpression) :
  getConsumedTypes Token_getConsumedTypes Token_getReturnTypes e =
  (λ _, []) <$> getReturnTypes Token_getConsumedTypes Token_getReturnTypes e.
Proof.
  unfold getConsumedTypes, getReturnTypes.
  destruct (resolveTypes2 e) as [ct|err] eqn:Hct; simpl; [|done].
  by rewrite (resolveTypes_consumed _ _ e ct Hct).
Qed.

Lemma resolveTypes_Throw (e : TokenExpression) (err : Error) :
  resolveTypes2 e = Throw err → err = TypeMismatch ∨ err = TypeMismatchExpected.
Proof.
  revert err. induction e as [operator operands IH|tokens IH| |headerToken label body IH]
    using TokenExpression_ind; intros err.
  - rewrite resolveTypes_tree.
    destruct (evalItems itemTypes2 operands []) as [stack|err'] eqn:Hitems; simpl.
    + destruct (decide (stack = _)); [done|]. intros [= <-]. by right.
    + intros [= <-]. apply evalItems_Throw in Hitems as [->|(o & Ho & Herr)]; [by left|].
      rewrite Forall_forall in IH. specialize (IH o Ho).
      destruct o as [t|e]; simpl in *; [done | by apply IH].
  - rewrite resolveTypes_unfolded.
    destruct (evalItems itemTypes2 tokens []) as [stack|err'] eqn:Hitems; simpl; [done|].
    intros [= <-]. apply evalItems_Throw in Hitems as [->|(o & Ho & Herr)]; [by left|].
    rewrite Forall_forall in IH. specialize (IH o Ho).
    destruct o as [t|e]; simpl in *; [done | by apply IH].
  - done.
  - rewrite resolveTypes_block.
    destruct (resolveTypes2 body) as [ct|err'] eqn:Hbody; simpl; [done|].
    intros [= <-]. by apply IH.
Qed.

Lemma getSignature_Throw (body : TokenExpression) (err : Error) :
  getSignature2 body = Throw err → resolveTypes2 body = Throw err.
Proof.
  unfold getSignature, getReturnTypes, getConsumedTypes.
  destruct (resolveTypes2 body); simpl; [done | by intros [= <-]].
Qed.

(** X4.  Type resolution and [unfold] raise nothing but the two type
    mismatch errors: the one of the pop loop and the 'expected ... but
    got' one of an operation tree. *)
Theorem type_errors_only (e : TokenExpression) :
  (∀ err,
      resolveTypes Token_getConsumedTypes Token_getReturnTypes e = Throw err →
      err = TypeMismatch ∨ err = TypeMismatchExpected)
  ∧ (∀ err,
      unfold Token_getConsumedTypes Token_getReturnTypes e = Throw err →
      err = TypeMismatch ∨ err = TypeMismatchExpected).
Proof.
  split; [intros err; apply resolveTypes_Throw|].
  induction e as [operator operands IH|tokens IH| |headerToken label body IH]
    using TokenExpression_ind; intros err.
  - rewrite unfold_tree.
    destruct (flatMapM _ operands) as [ts|err'] eqn:Hts; simpl; [done|].
    intros [= <-]. apply flatMapM_Throw in Hts as (o & Ho & Herr).
    rewrite Forall_forall in IH. specialize (IH o Ho).
    destruct o as [t|e]; simpl in *; [done|].
    destruct (unfold2 e) eqn:He; simpl in Herr; [done|].
    injection Herr as <-. by apply IH.
  - rewrite unfold_unfolded.
    destruct (flatMapM _ tokens) as [ts|err'] eqn:Hts; simpl; [done|].
    intros [= <-]. apply flatMapM_Throw in Hts as (o & Ho & Herr).
    rewrite Forall_forall in IH. specialize (IH o Ho).
    destruct o as [t|e]; simpl in *; [done|].
    destruct (unfold2 e) eqn:He; simpl in Herr; [done|].
    injection Herr as <-. by apply IH.
  - done.
  - rewrite unfold_block.
    destruct (getSignature2 body) as [sig|err'] eqn:Hsig; simpl.
    + destruct (unfold2 body) as [pb|err'] eqn:Hpb; simpl; [done|].
      intros [= <-]. by apply IH.
    + intros [= <-]. apply (resolveTypes_Throw body). by apply getSignature_Throw.
Qed.
End FurtherResolveProperties.

(** X2, witness: below an [f64], [i32.add] still takes two [i32] to one. *)
Lemma evalItems_frame_witness :
  evalItems (itemTypes Sample.getConsumedTypes Sample.getReturnTypes
               (resolveTypes Sample.getConsumedTypes Sample.getReturnTypes))
    [inl (Sample.i32_add 0)] [I32; I32] = Ok [I32]
  ∧ evalItems (itemTypes Sample.getConsumedTypes Sample.getReturnTypes
                 (resolveTypes Sample.getConsumedTypes Sample.getReturnTypes))
      [inl (Sample.i32_add 0)] ([F64] ++ [I32; I32]) = Ok ([F64] ++ [I32]).
Proof.
  split; [reflexivity|].
  apply (evalItems_frame Sample.getConsumedTypes Sample.getReturnTypes).
  reflexivity.
Defined.

(** ** Type resolution and [unfold] together *)

Section ResolveAndUnfold.
Variable Token_getConsumedTypes : Token → list ValueType.
Variable Token_getReturnTypes : Token → list ValueType.

#[local] Abbreviation resolveTypes3 :=
  (resolveTypes Token_getConsumedTypes Token_getReturnTypes).
#[local] Abbreviation itemTypes3 :=
  (itemTypes Token_getConsumedTypes Token_getReturnTypes resolveTypes3).
#[local] Abbreviation getReturnTypes3 :=
  (getReturnTypes Token_getConsumedTypes Token_getReturnTypes).
#[local] Abbreviation getSignature3 :=
  (getSignature Token_getConsumedTypes Token_getReturnTypes).
#[local] Abbreviation unfold3 := (unfold Token_getConsumedTypes Token_getReturnTypes).
#[local] Abbreviation blocksResolve3 :=
  (blocksResolve Token_getConsumedTypes Token_getReturnTypes).

Lemma items_blocksResolve (items : list (Token + TokenExpression)) :
  Forall (onExpr (λ e, ∀ ct, resolveTypes3 e = Ok ct → blocksResolve3 e = true)) items →
  Forall (λ o, ∃ ct, itemTypes3 o = Ok ct) items →
  forallb (λ o, match o with inl _ => true | inr e' => blocksResolve3 e' end) items = true.
Proof.
  intros IH. induction IH as [|o items Ho _ IHitems]; intros Hok; [done|].
  inversion Hok as [|? ? [ct Hct] Hrest]; subst. simpl.
  apply andb_true_iff. split; [|by apply IHitems].
  destruct o as [t|e]; simpl in *; [done | by eapply Ho].
Qed.

(** An expression whose types resolve has only blocks whose signature
    resolves. *)
Lemma resolveTypes_blocksResolve (e : TokenExpression) ct :
  resolveTypes3 e = Ok ct → blocksResolve3 e = true.
Proof.
  revert ct. induction e as [operator operands IH|tokens IH| |headerToken label body IH]
    using TokenExpression_ind; intros ct.
  - rewrite resolveTypes_tree, bind_Ok. intros (stack & Hitems & _).
    simpl. apply items_blocksResolve; [done|]. by eapply evalItems_Ok_items.
  - rewrite resolveTypes_unfolded, bind_Ok. intros (stack & Hitems & _).
    simpl. apply items_blocksResolve; [done|]. by eapply evalItems_Ok_items.
  - done.
  - rewrite resolveTypes_block, bind_Ok. intros (ct' & Hbody & _). simpl.
    apply andb_true_iff. split; [|by eapply IH].
    apply succeeds_true. exists (mkFunctionSignature ct'.1 ct'.2).
    apply getSignature_Ok. eauto.
Qed.

(** X5.  An expression that type-checks always unfolds, to its flat
    token stream; and a block unfolds exactly when its signature
    resolves, whatever blocks are nested inside its body. *)
Theorem typechecked_unfolds (e : TokenExpression) :
  (∀ r,
      getReturnTypes Token_getConsumedTypes Token_getReturnTypes e = Ok r →
      ∃ p, unfold Token_getConsumedTypes Token_getReturnTypes e = Ok p
           ∧ tokensOf p = flatten e)
  ∧ (∀ headerToken label,
      succeeds (unfold Token_getConsumedTypes Token_getReturnTypes
                  (BlockExpression headerToken label e)) =
      succeeds (getSignature Token_getConsumedTypes Token_getReturnTypes e)).
Proof.
  split.
  - intros r (ct & Hct & _)%fmap_Ok.
    pose proof (resolveTypes_blocksResolve e ct Hct) as Hres.
    rewrite <- unfold_succeeds in Hres. apply succeeds_true in Hres as [p Hp].
    exists p. split; [done|]. by eapply unfold_flatten.
  - intros headerToken label. rewrite unfold_succeeds. simpl.
    destruct (getSignature3 e) as [sig|err] eqn:Hsig; simpl; [|done].
    apply getSignature_Ok in Hsig as (ct & Hct & _).
    by eapply resolveTypes_blocksResolve.
Qed.

(** X7.  Checking a stack-form sequence composes: the return types of
    [xs ++ ys] are those of running [ys] from the return types of [xs],
    and an error in [xs] is the error of the whole sequence. *)
Theorem getReturnTypes_app (xs ys : list (Token + TokenExpression)) :
  getReturnTypes Token_getConsumedTypes Token_getReturnTypes
    (UnfoldedTokenExpression (xs ++ ys)) =
  getReturnTypes Token_getConsumedTypes Token_getReturnTypes
    (UnfoldedTokenExpression xs)
  ≫= evalItems (itemTypes Token_getConsumedTypes Token_getReturnTypes
                  (resolveTypes Token_getConsumedTypes Token_getReturnTypes)) ys.
Proof.
  unfold getReturnTypes. rewrite !resolveTypes_unfolded, evalItems_app.
  destruct (evalItems itemTypes3 xs []) as [stack|err]; simpl; [|done].
  by destruct (evalItems itemTypes3 ys stack).
Qed.

Lemma evalItems_flattened (items : list (Token + TokenExpression))
    (stack stack' : list ValueType) :
  Forall (onExpr (λ e, ∀ r stack,
      blockFree e = true →
      Forall (λ t, reverse (Token_getConsumedTypes t) = Token_getConsumedTypes t)
        (flatten e) →
      getReturnTypes3 e = Ok r →
      evalItems itemTypes3 (inl <$> flatten e) stack = Ok (stack ++ r))) items →
  forallb (λ o, match o with inl _ => true | inr e' => blockFree e' end) items = true →
  Forall (λ t, reverse (Token_getConsumedTypes t) = Token_getConsumedTypes t)
    (flat_map (λ o, match o with inl t => [t] | inr e' => flatten e' end) items) →
  evalItems itemTypes3 items stack = Ok stack' →
  evalItems itemTypes3
    (inl <$> flat_map (λ o, match o with inl t => [t] | inr e' => flatten e' end) items)
    stack = Ok stack'.
Proof.
  intros IH. revert stack.
  induction IH as [|o items Ho _ IHitems]; intros stack Hfree Hpal; [done|].
  simpl in Hfree, Hpal. apply andb_true_iff in Hfree as [Hfree1 Hfree2].
  apply Forall_app in Hpal as [Hpal1 Hpal2].
  rewrite evalItems_cons. simpl flat_map. rewrite fmap_app, evalItems_app.
  destruct o as [t|e]; simpl in Ho |- *.
  - destruct (popConsumed _ stack) as [stack1|err]; simpl; [|done].
    by apply IHitems.
  - destruct (resolveTypes3 e) as [ct|err] eqn:Hct; simpl; [|done].
    rewrite (resolveTypes_consumed _ _ e ct Hct). simpl.
    rewrite (Ho ct.2 stack Hfree1 Hpal1); [|unfold getReturnTypes; by rewrite Hct].
    simpl. by apply IHitems.
Qed.

(** X6.  Unfolding preserves typing.  For an expression without blocks
    whose tokens all have a consumed list that reads the same in both
    directions, if the expression type-checks with return types [r],
    then its unfolded token stream, run as a stack-form sequence from any
    stack, pushes exactly [r]; in particular the stream type-checks with
    the same return types. *)
Theorem unfold_preserves_types (e : TokenExpression) (r : list ValueType) :
  blockFree e = true →
  Forall (λ t, reverse (Token_getConsumedTypes t) = Token_getConsumedTypes t)
    (flatten e) →
  getReturnTypes Token_getConsumedTypes Token_getReturnTypes e = Ok r →
  (∀ stack,
      evalItems (itemTypes Token_getConsumedTypes Token_getReturnTypes
                   (resolveTypes Token_getConsumedTypes Token_getReturnTypes))
        (inl <$> flatten e) stack = Ok (stack ++ r))
  ∧ getReturnTypes Token_getConsumedTypes Token_getReturnTypes
      (UnfoldedTokenExpression (inl <$> flatten e)) = Ok r.
Proof.
  intros Hfree Hpal Hr.
  enough (Hrun : ∀ stack, evalItems itemTypes3 (inl <$> flatten e) stack = Ok (stack ++ r)).
  { split; [done|]. unfold getReturnTypes. rewrite resolveTypes_unfolded.
    by rewrite (Hrun []). }
  revert r Hfree Hpal Hr.
  induction e as [operator operands IH|tokens IH| |headerToken label body IH]
    using TokenExpression_ind; intros r Hfree Hpal Hr stack.
  - apply fmap_Ok in Hr as (ct & Hct & ->).
    rewrite resolveTypes_tree in Hct. apply bind_Ok in Hct as (inner & Hinner & Hif).
    destruct (decide (inner = _)) as [->|]; [|done]. injection Hif as <-.
    simpl in Hfree, Hpal |- *. apply Forall_app in Hpal as [Hpal1 Hpal2].
    rewrite fmap_app, evalItems_app.
    assert (evalItems itemTypes3
              (inl <$> flat_map (λ o, match o with inl t => [t] | inr e' => flatten e' end)
                         operands) stack
            = Ok (stack ++ Token_getConsumedTypes operator)) as ->.
    { assert (evalItems itemTypes3
                (inl <$> flat_map
                   (λ o, match o with inl t => [t] | inr e' => flatten e' end) operands)
                [] = Ok (Token_getConsumedTypes operator)) as Hflat.
      { apply evalItems_flattened; try done.
        eapply Forall_impl; [exact IH|]. intros [t|e']; simpl; [done|].
        intros He r' stack' ? ? ?. by apply He. }
      apply (evalItems_frame_gen _ _ _ _ stack) in Hflat.
      by rewrite app_nil_r in Hflat. }
    apply (proj1 (Forall_singleton _ _)) in Hpal2. simpl in Hpal2.
    assert (popConsumed (Token_getConsumedTypes operator)
              (stack ++ Token_getConsumedTypes operator) = Ok stack) as Hpop.
    { apply popConsumed_Ok. by rewrite Hpal2. }
    simpl. by rewrite Hpop.
  - apply fmap_Ok in Hr as (ct & Hct & ->).
    rewrite resolveTypes_unfolded in Hct. apply bind_Ok in Hct as (inner & Hinner & [= <-]).
    simpl in Hfree, Hpal |- *.
    assert (evalItems itemTypes3
              (inl <$> flat_map
                 (λ o, match o with inl t => [t] | inr e' => flatten e' end) tokens)
              [] = Ok inner) as Hflat.
    { apply evalItems_flattened; try done.
      eapply Forall_impl; [exact IH|]. intros [t|e']; simpl; [done|].
      intros He r' stack' ? ? ?. by apply He. }
    apply (evalItems_frame_gen _ _ _ _ stack) in Hflat.
    by rewrite app_nil_r in Hflat.
  - injection Hr as <-. simpl. by rewrite app_nil_r.
  - done.
Qed.
End ResolveAndUnfold.

(** X6, witness: [(i32.eq (i32.const 0) (i32.const 0))] returns [[i32]],
    and so does its unfolded stream, here run on top of an [f64]. *)
Lemma unfold_preserves_types_witness :
  getReturnTypes Sample.getConsumedTypes Sample.getReturnTypes Sample.eq_folded
  = Ok [I32]
  ∧ evalItems (itemTypes Sample.getConsumedTypes Sample.getReturnTypes
                 (resolveTypes Sample.getConsumedTypes Sample.getReturnTypes))
      (inl <$> flatten Sample.eq_folded) [F64] = Ok ([F64] ++ [I32]).
Proof.
  split; [reflexivity|].
  apply (unfold_preserves_types Sample.getConsumedTypes Sample.getReturnTypes
           Sample.eq_folded [I32]).
  - reflexivity.
  - repeat constructor.
  - reflexivity.
Defined.

(** ** The module built by the constructor *)

Lemma elem_of_exportsFrom (index : nat)
    (childNodes : list (FunctionExpression + ExportExpression)) (e : ExportExpression) :
  e ∈ exportsFrom index childNodes ↔
  e ∈ childExports childNodes
  ∨ ∃ k f name,
      childFunctions childNodes !! k = Some f
      ∧ inlineExportName f = Some name
      ∧ e = mkExportExpression name ExportType.Func
              (Some (Num (Z.of_nat (index + k)))) None.
Proof.
  revert index. induction childNodes as [|[f|e'] rest IH]; intros index.
  - split; [by intros ?%elem_of_nil|].
    intros [?%elem_of_nil|(k & f & name & Hk & _)]; done.
  - change (childExports (inl f :: rest)) with (childExports rest).
    change (childFunctions (inl f :: rest)) with (f :: childFunctions rest).
    simpl exportsFrom. rewrite elem_of_app, IH. split.
    + intros [Hin|[Hin|(k & g & name & Hk & Hname & ->)]].
      * right. unfold inlineExports in Hin.
        destruct (inlineExportName f) as [name|] eqn:Hname;
          [|by apply elem_of_nil in Hin].
        apply list_elem_of_singleton in Hin as ->.
        exists 0, f, name. by rewrite Nat.add_0_r.
      * by left.
      * right. exists (S k), g, name. split; [done|]. split; [done|].
        by rewrite Nat.add_succ_r.
    + intros [Hin|(k & g & name & Hk & Hname & ->)]; [right; by left|].
      destruct k as [|k].
      * injection Hk as <-. left. unfold inlineExports. rewrite Hname.
        rewrite Nat.add_0_r. apply list_elem_of_singleton. done.
      * right. right. exists k, g, name. split; [done|]. split; [done|].
        by rewrite Nat.add_succ_r.
  - change (childExports (inr e' :: rest)) with (e' :: childExports rest).
    change (childFunctions (inr e' :: rest)) with (childFunctions rest).
    simpl exportsFrom. rewrite !elem_of_cons, IH. tauto.
Qed.

Lemma length_exportsFrom (index : nat)
    (childNodes : list (FunctionExpression + ExportExpression)) :
  length (exportsFrom index childNodes) =
  length (childExports childNodes)
  + length (omap inlineExportName (childFunctions childNodes)).
Proof.
  revert index. induction childNodes as [|[f|e'] rest IH]; intros index; [done| |].
  - change (childExports (inl f :: rest)) with (childExports rest).
    change (childFunctions (inl f :: rest)) with (f :: childFunctions rest).
    simpl. rewrite length_app, IH. unfold inlineExports, omap.
    destruct (inlineExportName f); simpl; lia.
  - change (childExports (inr e' :: rest)) with (e' :: childExports rest).
    change (childFunctions (inr e' :: rest)) with (childFunctions rest).
    simpl. by rewrite IH.
Qed.

Section ConstructorProperties.
Variable Token_extractName : Token → string.
Variable Number_parseInt : string → number.

#[local] Abbreviation addChildren2 := (addChildren Token_extractName Number_parseInt).
#[local] Abbreviation new_ModuleExpression2 :=
  (new_ModuleExpression Token_extractName Number_parseInt).

(** What the constructor loop makes of a module and a list of children. *)
Lemma addChildren_shape (m0 : ModuleExpression)
    (childNodes : list (FunctionExpression + ExportExpression)) :
  ∃ m,
    addChildren2 m0 childNodes = Ok m
    ∧ functions m = functions m0 ++ childFunctions childNodes
    ∧ globals m = globals m0 ++ childFunctions childNodes
    ∧ exportExpressions m =
      exportExpressions m0 ++ exportsFrom (length (functions m0)) childNodes
    ∧ (∀ t, t ∈ globalTypes m ↔
            t ∈ globalTypes m0
            ∨ ∃ f, f ∈ childFunctions childNodes ∧ FunctionExpression_getSignature f = t)
    ∧ (NoDup (globalTypes m0) → NoDup (globalTypes m)).
Proof.
  revert m0. induction childNodes as [|[f|e] rest IH]; intros m0.
  - exists m0. simpl. rewrite !app_nil_r. repeat split; try done.
    + by left.
    + intros [?|(f & ?%elem_of_nil & _)]; done.
  - simpl addChildren. rewrite addFunctionExpression_Ok. simpl.
    match goal with |- context [addChildren2 ?m1 rest] =>
      destruct (IH m1) as (m & Hm & Hfun & Hglob & Hexp & Htypes & Hnd) end.
    simpl in *. exists m. split; [done|].
    change (childFunctions (inl f :: rest)) with (f :: childFunctions rest).
    rewrite Hfun, Hglob, Hexp, <- !app_assoc. simpl.
    split; [done|]. split; [done|]. split.
    { rewrite length_app. simpl. do 3 f_equal. lia. }
    split.
    + intros t. rewrite Htypes, addGlobalType_elem. split.
      * intros [[?| ->]|(g & Hg & <-)]; [by left | |].
        -- right. exists f. split; [left | done].
        -- right. exists g. split; [by right | done].
      * intros [?|(g & [->|Hg]%elem_of_cons & <-)]; [by left; left | by left; right |].
        right. by exists g.
    + intros Hnd0. by apply Hnd, addGlobalType_NoDup.
  - simpl addChildren.
    destruct (IH (addExportExpression m0 e)) as (m & Hm & Hfun & Hglob & Hexp & Htypes & Hnd).
    simpl in *. exists m. split; [done|].
    change (childFunctions (inr e :: rest)) with (childFunctions rest).
    rewrite Hexp, <- app_assoc. done.
Qed.

(** X8.  The constructor always returns, and in the module it builds the
    functions are the function children in order, [globals] is the same
    list, every function's signature is in the type table and resolves
    to an index holding it, every entry of the type table is the
    signature of some function, no entry occurs twice, and the table is
    never longer than the function list. *)
Theorem new_ModuleExpression_invariants
    (childNodes : list (FunctionExpression + ExportExpression)) :
  ∃ m,
    new_ModuleExpression Token_extractName Number_parseInt childNodes = Ok m
    ∧ functions m = childFunctions childNodes
    ∧ globals m = functions m
    ∧ (∀ t, t ∈ getFunctionSignatures m →
         ∃ i, resolveGlobalTypeIndex m t = Ok i ∧ getGlobalTypes m !! i = Some t)
    ∧ (∀ t, t ∈ getGlobalTypes m → t ∈ getFunctionSignatures m)
    ∧ NoDup (getGlobalTypes m)
    ∧ length (getGlobalTypes m) ≤ length (functions m).
Proof.
  destruct (addChildren_shape emptyModule childNodes)
    as (m & Hm & Hfun & Hglob & _ & Htypes & Hnd).
  simpl in *. specialize (Hnd (NoDup_nil_2)).
  assert (Hsub : ∀ t, t ∈ globalTypes m → t ∈ getFunctionSignatures m).
  { intros t [?%elem_of_nil|(f & Hf & <-)]%Htypes; [done|].
    unfold getFunctionSignatures. rewrite Hfun. by apply list_elem_of_fmap_2. }
  exists m. split; [done|]. split; [done|]. split; [congruence|].
  split; [|split; [exact Hsub|split; [exact Hnd|]]].
  - intros t Ht. apply resolveGlobalTypeIndex_elem. apply Htypes. right.
    unfold getFunctionSignatures in Ht. rewrite Hfun in Ht.
    apply list_elem_of_fmap in Ht as (f & -> & Hf). by exists f.
  - unfold getGlobalTypes.
    rewrite <- (length_fmap FunctionExpression_getSignature (functions m)).
    apply submseteq_length, NoDup_submseteq; [done|]. apply Hsub.
Qed.

(** X9.  In the module the constructor builds, an export expression is
    present exactly when it is an export child or the inline export
    [(name, Func, i)] of the function standing at index [i]; and the
    number of exports is the number of export children plus the number
    of functions that carry an inline-export name. *)
Theorem new_ModuleExpression_exports
    (childNodes : list (FunctionExpression + ExportExpression)) :
  ∃ m,
    new_ModuleExpression Token_extractName Number_parseInt childNodes = Ok m
    ∧ (∀ e, e ∈ exportExpressions m ↔
            e ∈ childExports childNodes
            ∨ ∃ i f name,
                functions m !! i = Some f
                ∧ inlineExportName f = Some name
                ∧ e = mkExportExpression name ExportType.Func
                        (Some (Num (Z.of_nat i))) None)
    ∧ length (exportExpressions m) =
      length (childExports childNodes)
      + length (omap inlineExportName (functions m)).
Proof.
  destruct (addChildren_shape emptyModule childNodes)
    as (m & Hm & Hfun & _ & Hexp & _).
  simpl in *. exists m. split; [done|]. rewrite Hexp, Hfun. split.
  - intros e. by rewrite elem_of_exportsFrom.
  - apply length_exportsFrom.
Qed.

(** X10.  For the module the constructor builds,
    [resolveGlobalExpressionIndex(name)] returns [i] exactly when [i] is
    the index of the first function whose name is [name], so the returned
    index is a valid function index; and it raises the assertion error
    exactly when no function has that name.  A function without a name
    is never found. *)
Theorem resolveGlobalExpressionIndex_constructed
    (childNodes : list (FunctionExpression + ExportExpression)) (name : string) :
  ∃ m,
    new_ModuleExpression Token_extractName Number_parseInt childNodes = Ok m
    ∧ (∀ i, resolveGlobalExpressionIndex m name = Ok i ↔
            (∃ f, functions m !! i = Some f ∧ functionName f = Some name)
            ∧ ∀ j g, j < i → functions m !! j = Some g → functionName g ≠ Some name)
    ∧ (resolveGlobalExpressionIndex m name = Throw AssertionFailed ↔
         ∀ f, f ∈ functions m → functionName f ≠ Some name).
Proof.
  destruct (addChildren_shape emptyModule childNodes)
    as (m & Hm & _ & Hglob & _).
  assert (Hfg : globals m = functions m).
  { destruct (addChildren_shape emptyModule childNodes)
      as (m' & Hm' & Hfun' & Hglob' & _).
    rewrite Hm in Hm'. injection Hm' as <-. simpl in *. congruence. }
  exists m. split; [done|]. unfold resolveGlobalExpressionIndex. rewrite Hfg.
  destruct (findIndexFrom _ (functions m) 0) as [k|] eqn:Hk.
  - pose proof Hk as [(f & Hf & Hname) Hmin]%findIndexFrom_Some.
    apply bool_decide_eq_true in Hname. split.
    + intros i. split.
      * intros [= <-]. split; [by exists f|]. intros j g Hj Hg.
        specialize (Hmin j g Hj Hg). by apply bool_decide_eq_false in Hmin.
      * intros [(g & Hg & Hgname) Hmini]. f_equal.
        destruct (Nat.lt_trichotomy k i) as [Hlt|[->|Hgt]]; [|done|].
        -- by destruct (Hmini k f Hlt Hf).
        -- specialize (Hmin i g Hgt Hg). by apply bool_decide_eq_false in Hmin.
    + split; [done|]. intros Hnone. destruct (Hnone f); [|done].
      by eapply list_elem_of_lookup_2.
  - rewrite findIndexFrom_None in Hk. split.
    + intros i. split; [done|]. intros [(g & Hg & Hgname) _].
      apply list_elem_of_lookup_2 in Hg. specialize (Hk g Hg).
      by apply bool_decide_eq_false in Hk.
    + split; [|done]. intros _ f Hf. specialize (Hk f Hf).
      by apply bool_decide_eq_false in Hk.
Qed.
End ConstructorProperties.

(** The fifth scenario: in [(module (func $a) (func $b))] the name [$b]
    resolves to index 1, and an unknown name raises the assertion
    error. *)
Example resolveGlobalExpressionIndex_two_functions :
  (m ← new_ModuleExpression Sample.extractName Sample.parseInt
         [inl (mkFunctionExpression Sample.sig_empty (mkFunctionBody EmptyTokenExpression)
                 (Some "$a") None [] [] []);
          inl (mkFunctionExpression Sample.sig_empty (mkFunctionBody EmptyTokenExpression)
                 (Some "$b") None [] [] [])];
   resolveGlobalExpressionIndex m "$b") = Ok 1
  ∧ (m ← new_ModuleExpression Sample.extractName Sample.parseInt [inl Sample.fn_nop];
     resolveGlobalExpressionIndex m "$b") = Throw AssertionFailed.
Proof. split; reflexivity. Qed.

(** ** Variables of a function *)

Lemma resolveVariableIndex_Ok (f : FunctionExpression) (x : string) (i : nat) :
  resolveVariableIndex f x = Ok i ↔
  (paramNames f ++ localNames f) !! i = Some (Some x)
  ∧ ∀ j, j < i → (paramNames f ++ localNames f) !! j ≠ Some (Some x).
Proof.
  unfold resolveVariableIndex.
  destruct (findIndexFrom _ (paramNames f ++ localNames f) 0) as [k|] eqn:Hk.
  - apply findIndexFrom_Some in Hk as [(y & Hy & Heq) Hmin].
    apply bool_decide_eq_true in Heq as ->. split.
    + intros [= <-]. split; [done|]. intros j Hj Hlook.
      specialize (Hmin j _ Hj Hlook). by apply bool_decide_eq_false in Hmin.
    + intros [Hi Hmini]. f_equal.
      destruct (Nat.lt_trichotomy k i) as [Hlt|[->|Hgt]]; [|done|].
      * by destruct (Hmini k Hlt).
      * specialize (Hmin i _ Hgt Hi). by apply bool_decide_eq_false in Hmin.
  - split; [done|]. intros [Hi _]. rewrite findIndexFrom_None in Hk.
    apply list_elem_of_lookup_2 in Hi. specialize (Hk _ Hi).
    by apply bool_decide_eq_false in Hk.
Qed.

(** X11.  A name that no parameter slot holds resolves past the
    parameters: [resolveVariableIndex] returns [i] exactly when [i] is
    the number of parameters plus the index of the first local slot that
    holds the name. *)
Theorem resolveVariableIndex_local (f : FunctionExpression) (x : string) (i : nat) :
  Some x ∉ paramNames f →
  (resolveVariableIndex f x = Ok i ↔
   ∃ k, i = length (paramNames f) + k
        ∧ localNames f !! k = Some (Some x)
        ∧ ∀ j, j < k → localNames f !! j ≠ Some (Some x)).
Proof.
  intros Hnin. rewrite resolveVariableIndex_Ok. split.
  - intros [Hi Hmin].
    destruct (decide (i < length (paramNames f))) as [Hlt|Hge].
    { rewrite lookup_app_l in Hi by done. by apply list_elem_of_lookup_2 in Hi. }
    exists (i - length (paramNames f)). split; [lia|].
    rewrite lookup_app_r in Hi by lia. split; [done|].
    intros j Hj Hlook. apply (Hmin (length (paramNames f) + j)); [lia|].
    rewrite lookup_app_r by lia.
    by replace (length (paramNames f) + j - length (paramNames f)) with j by lia.
  - intros (k & -> & Hk & Hmin). split.
    + rewrite lookup_app_r by lia.
      by replace (length (paramNames f) + k - length (paramNames f)) with k by lia.
    + intros j Hj Hlook.
      destruct (decide (j < length (paramNames f))) as [Hlt|Hge].
      * rewrite lookup_app_l in Hlook by done.
        by apply list_elem_of_lookup_2 in Hlook.
      * rewrite lookup_app_r in Hlook by lia.
        apply (Hmin (j - length (paramNames f))); [lia | done].
Qed.

(** X11, witness: in [fn_add] the local [$tmp] follows the two
    parameters and resolves to index 2. *)
Lemma resolveVariableIndex_local_witness :
  (Some "$tmp" ∉ paramNames Sample.fn_add)
  ∧ (resolveVariableIndex Sample.fn_add "$tmp" = Ok 2 ↔
     ∃ k, 2 = length (paramNames Sample.fn_add) + k
          ∧ localNames Sample.fn_add !! k = Some (Some "$tmp")
          ∧ ∀ j, j < k → localNames Sample.fn_add !! j ≠ Some (Some "$tmp")).
Proof.
  assert (Some "$tmp" ∉ paramNames Sample.fn_add) as Hnin.
  { simpl. intros [H|[H|H%elem_of_nil]%elem_of_cons]%elem_of_cons; done. }
  split; [exact Hnin|].
  apply (resolveVariableIndex_local Sample.fn_add "$tmp" 2 Hnin).
Defined.

(** X12.  In a function its constructor accepted, every index that
    [resolveVariableIndex] returns denotes a declared slot: it is below
    the number of parameter types plus the number of local types. *)
Theorem resolveVariableIndex_in_bounds
    (functionName inlineExportName : option string)
    (paramTypes : list ValueType) (paramNames : list (option string))
    (returnTypes localTypes : list ValueType) (localNames : list (option string))
    (body : TokenExpression) (f : FunctionExpression) (x : string) (i : nat) :
  new_FunctionExpression functionName inlineExportName paramTypes paramNames
    returnTypes localTypes localNames body = Ok f →
  resolveVariableIndex f x = Ok i →
  i < length paramTypes + length localTypes.
Proof.
  intros (Hp & Hl & ->)%new_FunctionExpression_Ok [Hi _]%resolveVariableIndex_Ok.
  simpl in Hi. apply lookup_lt_Some in Hi. rewrite length_app in Hi. lia.
Qed.

(** X12, witness: [fn_add] is what the constructor builds from its
    fields, and [$b] resolves below its three slots. *)
Lemma resolveVariableIndex_in_bounds_witness :
  new_FunctionExpression (Some "$add") (Some "fn") [F64; F64] [Some "$a"; Some "$b"]
    [F64] [F64] [Some "$tmp"] EmptyTokenExpression = Ok Sample.fn_add
  ∧ resolveVariableIndex Sample.fn_add "$b" = Ok 1
  ∧ 1 < length [F64; F64] + length [F64].
Proof.
  split; [reflexivity|]. split; [reflexivity|].
  apply (resolveVariableIndex_in_bounds (Some "$add") (Some "fn") [F64; F64]
           [Some "$a"; Some "$b"] [F64] [F64] [Some "$tmp"] EmptyTokenExpression
           Sample.fn_add "$b" 1); reflexivity.
Defined.

(** ** Errors of the export constructor *)

Section ExportErrors.
Variable Token_extractName : Token → string.
Variable Number_parseInt : string → number.

(** X13.  The export constructor checks its arguments in the order
    name, kind, reference and raises the error of the first check that
    fails: a name token that is not a [Text] gives the export-name error
    whatever the other arguments are; with a good name, a kind token that
    is not [Func] gives the export-type error; with both good, a
    reference token that is neither [Nat] nor [Var] gives the export-ID
    error.  On success the export name is the given string or the name
    extracted from the token, and the kind is the given kind, which for a
    token is always [Func]. *)
Theorem new_ExportExpression_errors
    (nameArg : string + Token) (kindArg : ExportType.t + Token)
    (referenceArg : number + Token) :
  (∀ tok,
      nameArg = inr tok → type tok ≠ TokenType.Text →
      new_ExportExpression Token_extractName Number_parseInt
        nameArg kindArg referenceArg = Throw UnexpectedExportName)
  ∧ (∀ tok,
      match nameArg with inl _ => True | inr t => type t = TokenType.Text end →
      kindArg = inr tok → type tok ≠ TokenType.Func →
      new_ExportExpression Token_extractName Number_parseInt
        nameArg kindArg referenceArg = Throw UnexpectedExportType)
  ∧ (∀ tok,
      match nameArg with inl _ => True | inr t => type t = TokenType.Text end →
      match kindArg with inl _ => True | inr t => type t = TokenType.Func end →
      referenceArg = inr tok →
      type tok ≠ TokenType.Nat → type tok ≠ TokenType.Var →
      new_ExportExpression Token_extractName Number_parseInt
        nameArg kindArg referenceArg = Throw UnexpectedExportID)
  ∧ (∀ e,
      new_ExportExpression Token_extractName Number_parseInt
        nameArg kindArg referenceArg = Ok e →
      exportName e =
        match nameArg with inl s => s | inr tok => Token_extractName tok end
      ∧ exportType e =
        match kindArg with inl t => t | inr _ => ExportType.Func end).
Proof.
  assert (Hname : match nameArg with inl _ => True | inr t => type t = TokenType.Text end →
            match nameArg with
            | inl s => Ok s
            | inr tok => getExportName Token_extractName tok
            end = Ok match nameArg with inl s => s | inr tok => Token_extractName tok end).
  { destruct nameArg as [s|tok]; [done|]. intros Htext. unfold getExportName.
    by rewrite bool_decide_eq_false_2 by (by intros ?). }
  assert (Hkind : match kindArg with inl _ => True | inr t => type t = TokenType.Func end →
            match kindArg with
            | inr tok => getExportType tok
            | inl t => Ok t
            end = Ok match kindArg with inl t => t | inr _ => ExportType.Func end).
  { destruct kindArg as [t|tok]; [done|]. intros Hfunc. unfold getExportType.
    by rewrite bool_decide_eq_false_2 by (by intros ?). }
  split; [|split; [|split]].
  - intros tok -> Hne. unfold new_ExportExpression, getExportName.
    by rewrite bool_decide_eq_true_2.
  - intros tok Hok -> Hne. unfold new_ExportExpression. rewrite (Hname Hok). simpl.
    unfold getExportType. by rewrite bool_decide_eq_true_2.
  - intros tok Hok1 Hok2 -> Hnat Hvar. unfold new_ExportExpression.
    rewrite (Hname Hok1). simpl. rewrite (Hkind Hok2). simpl.
    unfold getExportReference. by destruct (type tok).
  - intros e (name & ty & ref & Hn & Ht & _ & ->)%new_ExportExpression_Ok. simpl. split.
    + destruct nameArg as [s|tok]; [by injection Hn as <-|].
      unfold getExportName in Hn. case_bool_decide; [done | by injection Hn as <-].
    + destruct kindArg as [t|tok]; [by injection Ht as <-|].
      unfold getExportType in Ht. case_bool_decide; [done | by injection Ht as <-].
Qed.
End ExportErrors.

(** ** The block class of the later revision *)

(** X14.  In the later revision, constructing a block returns exactly
    when the header token is a [block], [loop] or [if] token and raises
    the assertion error otherwise; on the constructed block
    [getSignatureType] is the signature of the given parameter and
    result types, [getParamTypes], [getReturnTypes], [getName],
    [getBlockType] and [getBody] give back the constructor's arguments,
    [hasName] tells whether the name is not null, and the signature
    [isEmpty] exactly when both type lists are empty. *)
Theorem Revision2_block_constructor (headerToken : Token) (name : option string)
    (paramTypes returnTypes : list ValueType) (blockExpression : TokenExpression) :
  (type headerToken = TokenType.Block ∨ type headerToken = TokenType.Loop
   ∨ type headerToken = TokenType.If →
   ∃ b,
     Revision2.new_BlockExpression headerToken name paramTypes returnTypes
       blockExpression = Ok b
     ∧ Revision2.getSignatureType b = mkFunctionSignature paramTypes returnTypes
     ∧ Revision2.getParamTypes b = paramTypes
     ∧ Revision2.getReturnTypes b = returnTypes
     ∧ Revision2.getName b = name
     ∧ Revision2.hasName b = bool_decide (name ≠ None)
     ∧ Revision2.getBlockType b = type headerToken
     ∧ Revision2.getBody b = blockExpression
     ∧ (Revision2.isEmpty (Revision2.getSignatureType b) = true ↔
          paramTypes = [] ∧ returnTypes = []))
  ∧ (type headerToken ≠ TokenType.Block → type headerToken ≠ TokenType.Loop →
     type headerToken ≠ TokenType.If →
     Revision2.new_BlockExpression headerToken name paramTypes returnTypes
       blockExpression = Throw AssertionFailed).
Proof.
  unfold Revision2.new_BlockExpression, Revision2.new_BlockSignature. split.
  - intros Hkind.
    assert (bool_decide (type headerToken = TokenType.Block)
            || bool_decide (type headerToken = TokenType.Loop)
            || bool_decide (type headerToken = TokenType.If) = true) as ->.
    { destruct Hkind as [->|[->| ->]]; done. }
    simpl. eexists. split; [done|]. do 7 (split; [done|]).
    unfold Revision2.isEmpty. simpl. rewrite andb_true_iff, !bool_decide_eq_true.
    split.
    + intros [Hp Hr]. by destruct paramTypes, returnTypes.
    + by intros [-> ->].
  - intros H1 H2 H3.
    by rewrite !bool_decide_eq_false_2.
Qed.
